(** * The accelerated inference engine of index-tts, in Rocq

    A shallow embedding of [indextts/accel/accel_engine.py]: the batch
    preparers ([_prepare_prefill], [_prepare_decode]), the execution-plan
    cache ([_capture_cuda_graphs], [_run_decode_with_graph]) and the
    generation loop ([generate]), followed by the properties the
    specification states about them.

    Conventions.
    - A tensor of integers is the list of its elements (a matrix: the list of
      its rows); the element types (int32, int64) are recorded in comments
      only.  A matrix built from a list of Python lists is checked to be
      rectangular, as [torch.tensor] does.
    - A Python exception is a value of [error]; a method of the engine is a
      function from the engine state to a result and the state it leaves.
    - The classes and functions the engine imports from modules that are
      not part of [accel_engine.py] (the sequence class, the cache manager,
      the forward context, the model, the logits head, the random source)
      are parameters, gathered in the class [Collab]. *)

From Stdlib Require Import ZArith List Lia QArith Bool.
From stdpp Require Import base list gmap.

Local Open Scope Z_scope.

(** ** Exceptions and results *)

Inductive error : Type :=
| FatalNoRequests     (* RuntimeError "FATAL: No requests provided to _prepare_decode!" *)
| FatalBatchCeiling   (* RuntimeError "FATAL: batch_size=.. exceeds CUDA Graph limit (8)!" *)
| GraphVarsUninit     (* RuntimeError "Graph variables not initialized" *)
| IndexError          (* a list or tensor index out of range *)
| KeyError            (* a dict key that is absent *)
| ValueError          (* torch.tensor on rows of unequal length; max of nothing *)
| ShapeError          (* RuntimeError of torch: shapes that do not fit *)
| AssertionError
| ZeroDivisionError
| TypeError           (* None where a tensor is expected *)
| AttributeError      (* an attribute of None *).

Inductive Result (A : Type) : Type :=
| Ok (a : A)
| Raise (e : error).
Arguments Ok {A} a.
Arguments Raise {A} e.

Definition is_ok {A} (r : Result A) : bool :=
  match r with Ok _ => true | Raise _ => false end.

(** ** Sequences *)

(** Modelled from the spec: the class [Seq] of [kv_manager], which is
    imported by the engine and not defined in it.  One field per attribute
    the engine reads (section 3 of the specification: token history, count
    of prompt tokens, count of cached tokens, block identifiers, fill count
    of the last block); no relation between the fields is built in, the
    invariants of section 3 are stated where a property needs them. *)
Record Seq : Type := mkSeq {
  token_ids : list Z;
  last_token : Z;
  num_prompt_tokens : nat;
  num_cached_tokens : nat;
  block_table : list Z;
  num_cached_blocks : nat;
  num_blocks : nat;
  last_block_num_tokens : nat
}.

(** Modelled from the spec: [len(req)], the total number of tokens of the
    token history. *)
Definition seq_len (req : Seq) : nat := length (token_ids req).

(** ** The forward context *)

(** Modelled from the spec: the class [ForwardContext] of [attention] and
    its three accessors, imported by the engine.  The fields are the
    arguments [set_forward_context] is called with; an argument left out is
    [None] (0 for the two maxima). *)
Record ForwardContext : Type := mkCtx {
  is_prefill : bool;
  cu_seqlens_q : option (list Z);
  cu_seqlens_k : option (list Z);
  max_seqlen_q : Z;
  max_seqlen_k : Z;
  slot_mapping : option (list Z);
  context_lens : option (list Z);
  block_tables : option (list (list Z))
}.

Definition empty_context : ForwardContext :=
  mkCtx false None None 0 0 None None None.

Definition decode_context (slots lens : list Z) (tables : list (list Z))
  : ForwardContext :=
  mkCtx false None None 0 0 (Some slots) (Some lens) (Some tables).

(** ** Tensors built from Python lists *)

(** [torch.tensor] on a list of lists: the rows must have one length. *)
Definition tensor2d {A} (rows : list (list A)) : Result (list (list A)) :=
  match rows with
  | [] => Ok []
  | r :: rs =>
      if forallb (fun r' => Nat.eqb (length r') (length r)) rs
      then Ok rows else Raise ValueError
  end.

(** A 2-D tensor of token ids as [generate] receives it: [size(0)] is the
    number of rows, [size(1)] is kept beside the rows since a tensor without
    rows still has a width. *)
Record Tensor2 : Type := mkTensor2 {
  t_rows : list (list Z);
  t_cols : nat
}.

Definition tensor2_wf (t : Tensor2) : Prop :=
  Forall (fun r => length r = t_cols t) (t_rows t).

(** Python's [max] over a generator: ValueError when there is nothing. *)
Definition py_max (l : list nat) : Result nat :=
  match l with
  | [] => Raise ValueError
  | _ => Ok (max_list l)
  end.

(** [l[-1]] *)
Definition py_last {A} (l : list A) : Result A :=
  match last l with
  | Some x => Ok x
  | None => Raise IndexError
  end.

(** [list(range(a, b))] over integers. *)
Definition py_range (a b : Z) : list Z := seqZ a (b - a).

(** The padded block-table matrix both preparers build: each block list
    extended with -1 up to the longest one, then made a tensor. *)
Definition pad_row (max_len : nat) (req : Seq) : list Z :=
  block_table req ++ replicate (max_len - length (block_table req)) (-1).

Definition build_block_tables (requests : list Seq) : Result (list (list Z)) :=
  match py_max (map (fun req => length (block_table req)) requests) with
  | Raise e => Raise e
  | Ok max_len => tensor2d (map (pad_row max_len) requests)
  end.

(** ** Prefill preparation: the pure part of [_prepare_prefill] *)

(** The local lists and maxima of [_prepare_prefill]. *)
Record PrefillVars : Type := mkPrefillVars {
  pv_input_ids : list Z;
  pv_positions : list Z;
  pv_cu_seqlens_q : list Z;
  pv_cu_seqlens_k : list Z;
  pv_max_seqlen_q : Z;
  pv_max_seqlen_k : Z;
  pv_slot_mapping : list Z
}.

Definition prefill_init : PrefillVars :=
  mkPrefillVars [] [] [0] [0] 0 0 [].

(** [cu[-1]] on a list that starts as [[0]] and only grows. *)
Definition cu_last (cu : list Z) : Z := List.last cu 0.

(** The inner loop [for i in range(req.num_cached_blocks, req.num_blocks)],
    over the indices still to visit. *)
Fixpoint slots_loop (block_size : nat) (req : Seq) (indices : list nat)
    (slots : list Z) : Result (list Z) :=
  match indices with
  | [] => Ok slots
  | i :: rest =>
      match block_table req !! i with
      | None => Raise IndexError
      | Some block_id =>
          let start := block_id * Z.of_nat block_size in
          let end_ :=
            if negb (Z.of_nat i =? Z.of_nat (num_blocks req) - 1)
            then start + Z.of_nat block_size
            else start + Z.of_nat (last_block_num_tokens req) in
          slots_loop block_size req rest (slots ++ py_range start end_)
      end
  end.

Definition prefill_slots (block_size : nat) (req : Seq) (slots : list Z)
  : Result (list Z) :=
  match block_table req with
  | [] => Ok slots
  | _ :: _ =>
      slots_loop block_size req
        (seq (num_cached_blocks req) (num_blocks req - num_cached_blocks req))
        slots
  end.

(** One turn of [for req in requests]. *)
Definition prefill_step (block_size : nat) (v : PrefillVars) (req : Seq)
  : Result PrefillVars :=
  let seqlen := seq_len req in
  let seqlen_q := Z.of_nat seqlen - Z.of_nat (num_cached_tokens req) in
  let seqlen_k := Z.of_nat seqlen in
  match prefill_slots block_size req (pv_slot_mapping v) with
  | Raise e => Raise e
  | Ok slots =>
      Ok {| pv_input_ids :=
              pv_input_ids v ++ drop (num_cached_tokens req) (token_ids req);
            pv_positions :=
              pv_positions v ++
              map Z.of_nat
                (seq (num_cached_tokens req) (seqlen - num_cached_tokens req));
            pv_cu_seqlens_q :=
              pv_cu_seqlens_q v ++ [cu_last (pv_cu_seqlens_q v) + seqlen_q];
            pv_cu_seqlens_k :=
              pv_cu_seqlens_k v ++ [cu_last (pv_cu_seqlens_k v) + seqlen_k];
            pv_max_seqlen_q := Z.max seqlen_q (pv_max_seqlen_q v);
            pv_max_seqlen_k := Z.max seqlen_k (pv_max_seqlen_k v);
            pv_slot_mapping := slots |}
  end.

Fixpoint prefill_loop (block_size : nat) (requests : list Seq)
    (v : PrefillVars) : Result PrefillVars :=
  match requests with
  | [] => Ok v
  | req :: rest =>
      match prefill_step block_size v req with
      | Raise e => Raise e
      | Ok v' => prefill_loop block_size rest v'
      end
  end.

(** The block table of the prefill: built only when the keys are longer in
    total than the queries. *)
Definition prefill_block_tables (requests : list Seq) (v : PrefillVars)
  : Result (option (list (list Z))) :=
  if cu_last (pv_cu_seqlens_q v) <? cu_last (pv_cu_seqlens_k v)
  then match build_block_tables requests with
       | Raise e => Raise e
       | Ok t => Ok (Some t)
       end
  else Ok None.

(** What [_prepare_prefill] computes: the context it installs and the pair
    it returns. *)
Definition prefill_batch (block_size : nat) (requests : list Seq)
  : Result (ForwardContext * (list Z * list Z)) :=
  match prefill_loop block_size requests prefill_init with
  | Raise e => Raise e
  | Ok v =>
      match prefill_block_tables requests v with
      | Raise e => Raise e
      | Ok tables =>
          Ok (mkCtx true
                (Some (pv_cu_seqlens_q v)) (Some (pv_cu_seqlens_k v))
                (pv_max_seqlen_q v) (pv_max_seqlen_k v)
                (Some (pv_slot_mapping v)) None tables,
              (pv_input_ids v, pv_positions v))
      end
  end.

(** ** Decode preparation: the pure part of [_prepare_decode] *)

Record DecodeVars : Type := mkDecodeVars {
  dv_input_ids : list Z;
  dv_positions : list Z;
  dv_slot_mapping : list Z;
  dv_context_lens : list Z
}.

(** [pos], with the shift of the embedding-driven mode.  [tts_mode] is
    [None] while the attribute [_tts_mode] does not exist yet. *)
Definition decode_position (tts_mode : option bool) (tts_prompt_len : nat)
    (req : Seq) : Z :=
  let pos := Z.of_nat (seq_len req) - 1 in
  match tts_mode with
  | Some true => pos - (Z.of_nat tts_prompt_len - 1)
  | _ => pos
  end.

Definition decode_step_vars (block_size : nat) (tts_mode : option bool)
    (tts_prompt_len : nat) (v : DecodeVars) (req : Seq) : Result DecodeVars :=
  match py_last (block_table req) with
  | Raise e => Raise e
  | Ok last_block =>
      Ok {| dv_input_ids := dv_input_ids v ++ [last_token req];
            dv_positions :=
              dv_positions v ++ [decode_position tts_mode tts_prompt_len req];
            dv_context_lens := dv_context_lens v ++ [Z.of_nat (seq_len req)];
            dv_slot_mapping :=
              dv_slot_mapping v ++
              [last_block * Z.of_nat block_size
               + Z.of_nat (last_block_num_tokens req) - 1] |}
  end.

Fixpoint decode_vars_loop (block_size : nat) (tts_mode : option bool)
    (tts_prompt_len : nat) (requests : list Seq) (v : DecodeVars)
  : Result DecodeVars :=
  match requests with
  | [] => Ok v
  | req :: rest =>
      match decode_step_vars block_size tts_mode tts_prompt_len v req with
      | Raise e => Raise e
      | Ok v' => decode_vars_loop block_size tts_mode tts_prompt_len rest v'
      end
  end.

(** The two assertions on the block-table tensor. *)
Definition check_block_tables (requests : list Seq) (t : list (list Z))
  : Result unit :=
  if Nat.eqb (length t) (length requests) then Ok tt else Raise AssertionError.

Definition decode_batch (block_size : nat) (tts_mode : option bool)
    (tts_prompt_len : nat) (requests : list Seq)
  : Result (ForwardContext * (list Z * list Z)) :=
  match requests with
  | [] => Raise FatalNoRequests
  | _ :: _ =>
      match decode_vars_loop block_size tts_mode tts_prompt_len requests
              (mkDecodeVars [] [] [] []) with
      | Raise e => Raise e
      | Ok v =>
          match build_block_tables requests with
          | Raise e => Raise e
          | Ok tables =>
              match check_block_tables requests tables with
              | Raise e => Raise e
              | Ok _ =>
                  Ok (decode_context (dv_slot_mapping v) (dv_context_lens v)
                        tables,
                      (dv_input_ids v, dv_positions v))
              end
          end
      end
  end.

(** ** The collaborators of the engine *)

(** What a forward call of the model is given: token ids with an optional
    attention mask, or precomputed input embeddings; one inner list per row
    of the batch, one element per position. *)
Inductive ModelInput (Emb Mask : Type) : Type :=
| InputIds (ids : list (list Z)) (mask : option Mask)
| InputsEmbeds (embeds : list (list Emb)).
Arguments InputIds {Emb Mask} ids mask.
Arguments InputsEmbeds {Emb Mask} embeds.

(** The positional-embedding module of the text-to-speech path: its table
    [emb], applied to positions, and its own forward call, applied to an
    embedded batch. *)
Record PosEmbedding (Emb : Type) : Type := mkPosEmbedding {
  pe_emb : Z -> Emb;
  pe_forward : list (list Emb) -> list (list Emb)
}.
Arguments pe_emb {Emb} p.
Arguments pe_forward {Emb} p.

(** Modelled from the spec: the interfaces of section 6, whose
    implementations are outside [accel_engine.py].  [Seq_new] is the
    constructor [Seq(token_ids)] and [append_token] the method of that name;
    the three cache-manager calls take and return the manager's state and
    the sequence they update in place; [model_forward] is one forward call of
    the model, which reads the current forward context and reads and writes
    the device state [MState] (the cache contents); [compute_logits] is the
    logits projection, by [lm_head] or by the model; [sampler] is
    [Sampler.forward] with the random source it draws its noise from;
    [logit_gtb] is the strict order [torch.argmax] compares logits with. *)
Class Collab : Type := mkCollab {
  KV : Type;
  MState : Type;
  Rng : Type;
  Hidden : Type;
  Logit : Type;
  Emb : Type;
  Mask : Type;
  Seq_new : list Z -> Seq;
  append_token : Seq -> Z -> Seq;
  kv_allocate : KV -> Seq -> KV * Seq;
  kv_append_to_seq : KV -> Seq -> KV * Seq;
  kv_remove_seq : KV -> Seq -> KV * Seq;
  model_forward :
    MState -> ModelInput Emb Mask -> ForwardContext ->
    MState * list (list Hidden);
  compute_logits : list Hidden -> list (list Logit);
  logit_gtb : Logit -> Logit -> bool;
  sampler : Rng -> list (list Logit) -> list Q -> Rng * list Z;
  hidden_zero : Hidden;
  emb_zero : Emb;
  emb_add : Emb -> Emb -> Emb
}.

Section Engine.
Context `{C : Collab}.

(** The embedding modules a plan was recorded with, when it was recorded on
    the embedding-driven branch. *)
Definition TtsModules : Type := ((Z -> Emb) * PosEmbedding Emb)%type.

(** A captured plan: the branch that was recorded. *)
Record Graph : Type := mkGraph {
  g_tts : option TtsModules
}.

(** The fixed buffers [graph_vars]. *)
Record GraphVars : Type := mkGraphVars {
  gv_input_ids : list Z;
  gv_positions : list Z;
  gv_slot_mapping : list Z;
  gv_context_lens : list Z;
  gv_block_tables : list (list Z);
  gv_outputs : list Hidden;
  gv_inputs_embeds : list Emb
}.

(** The state a call can read and write: the attributes of the engine, the
    state of its collaborators, and the current forward context of the
    attention module.  [tts_mode] is [None] until [generate] sets
    [_tts_mode]; [graph_bs] is read only once plans exist. *)
Record Engine : Type := mkEngine {
  block_size : nat;
  use_cuda_graph : bool;
  kv_manager : KV;
  mstate : MState;
  rng : Rng;
  current_context : ForwardContext;
  current_sequences : list Seq;
  graphs : gmap nat Graph;
  graph_vars : option GraphVars;
  graph_captured : bool;
  graph_bs : list nat;
  tts_mode : option bool;
  tts_prompt_len : nat
}.

Definition set_kv_manager (k : KV) (e : Engine) : Engine :=
  mkEngine (block_size e) (use_cuda_graph e) k (mstate e) (rng e)
    (current_context e) (current_sequences e) (graphs e) (graph_vars e)
    (graph_captured e) (graph_bs e) (tts_mode e) (tts_prompt_len e).
Definition set_mstate (m : MState) (e : Engine) : Engine :=
  mkEngine (block_size e) (use_cuda_graph e) (kv_manager e) m (rng e)
    (current_context e) (current_sequences e) (graphs e) (graph_vars e)
    (graph_captured e) (graph_bs e) (tts_mode e) (tts_prompt_len e).
Definition set_rng (r : Rng) (e : Engine) : Engine :=
  mkEngine (block_size e) (use_cuda_graph e) (kv_manager e) (mstate e) r
    (current_context e) (current_sequences e) (graphs e) (graph_vars e)
    (graph_captured e) (graph_bs e) (tts_mode e) (tts_prompt_len e).
Definition set_context (c : ForwardContext) (e : Engine) : Engine :=
  mkEngine (block_size e) (use_cuda_graph e) (kv_manager e) (mstate e) (rng e)
    c (current_sequences e) (graphs e) (graph_vars e)
    (graph_captured e) (graph_bs e) (tts_mode e) (tts_prompt_len e).
Definition set_sequences (s : list Seq) (e : Engine) : Engine :=
  mkEngine (block_size e) (use_cuda_graph e) (kv_manager e) (mstate e) (rng e)
    (current_context e) s (graphs e) (graph_vars e)
    (graph_captured e) (graph_bs e) (tts_mode e) (tts_prompt_len e).
Definition set_graphs (g : gmap nat Graph) (e : Engine) : Engine :=
  mkEngine (block_size e) (use_cuda_graph e) (kv_manager e) (mstate e) (rng e)
    (current_context e) (current_sequences e) g (graph_vars e)
    (graph_captured e) (graph_bs e) (tts_mode e) (tts_prompt_len e).
Definition set_graph_vars (v : option GraphVars) (e : Engine) : Engine :=
  mkEngine (block_size e) (use_cuda_graph e) (kv_manager e) (mstate e) (rng e)
    (current_context e) (current_sequences e) (graphs e) v
    (graph_captured e) (graph_bs e) (tts_mode e) (tts_prompt_len e).
Definition set_graph_captured (b : bool) (e : Engine) : Engine :=
  mkEngine (block_size e) (use_cuda_graph e) (kv_manager e) (mstate e) (rng e)
    (current_context e) (current_sequences e) (graphs e) (graph_vars e)
    b (graph_bs e) (tts_mode e) (tts_prompt_len e).
Definition set_graph_bs (l : list nat) (e : Engine) : Engine :=
  mkEngine (block_size e) (use_cuda_graph e) (kv_manager e) (mstate e) (rng e)
    (current_context e) (current_sequences e) (graphs e) (graph_vars e)
    (graph_captured e) l (tts_mode e) (tts_prompt_len e).
Definition set_tts (mode : bool) (prompt_len : nat) (e : Engine) : Engine :=
  mkEngine (block_size e) (use_cuda_graph e) (kv_manager e) (mstate e) (rng e)
    (current_context e) (current_sequences e) (graphs e) (graph_vars e)
    (graph_captured e) (graph_bs e) (Some mode) prompt_len.

(** *** Calls on the engine: state and exceptions *)

Definition M (A : Type) : Type := Engine -> Result A * Engine.

Definition ret {A} (a : A) : M A := fun e => (Ok a, e).
Definition raise {A} (x : error) : M A := fun e => (Raise x, e).
Definition bind {A B} (m : M A) (f : A -> M B) : M B :=
  fun e =>
    match m e with
    | (Ok a, e') => f a e'
    | (Raise x, e') => (Raise x, e')
    end.
Definition lift {A} (r : Result A) : M A := fun e => (r, e).
Definition gets {A} (f : Engine -> A) : M A := fun e => (Ok (f e), e).
Definition modify (f : Engine -> Engine) : M unit := fun e => (Ok tt, f e).

Notation "x <- m ;; k" := (bind m (fun x => k))
  (at level 100, m at next level, right associativity).
Notation "m ;;; k" := (bind m (fun _ => k))
  (at level 100, right associativity).

(** [set_forward_context], [get_forward_context], [reset_forward_context]. *)
Definition set_forward_context (c : ForwardContext) : M unit :=
  modify (set_context c).
Definition get_forward_context : M ForwardContext := gets current_context.
Definition reset_forward_context : M unit := modify (set_context empty_context).

(** *** The two preparers *)

Definition _prepare_prefill (requests : list Seq) : M (list Z * list Z) :=
  bs <- gets block_size ;;
  out <- lift (prefill_batch bs requests) ;;
  (set_forward_context (fst out) ;;;
   ret (snd out)).

Definition _prepare_decode (requests : list Seq) : M (list Z * list Z) :=
  bs <- gets block_size ;;
  mode <- gets tts_mode ;;
  plen <- gets tts_prompt_len ;;
  out <- lift (decode_batch bs mode plen requests) ;;
  (set_forward_context (fst out) ;;;
   ret (snd out)).

Definition _prepare_sample (requests : list Seq) (temperature : Q) : list Q :=
  replicate (length requests) temperature.

(** *** Tensor helpers of the decode path *)

(** Broadcasting a source of length 1 (or of the right length) to [n]
    elements, as an assignment into a slice does. *)
Definition broadcast_to {A} (n : nat) (src : list A) : Result (list A) :=
  if Nat.eqb (length src) n then Ok src
  else match src with
       | [x] => Ok (replicate n x)
       | _ => Raise ShapeError
       end.

(** [buf[:bs] = src] *)
Definition assign_prefix {A} (bs : nat) (src buf : list A) : Result (list A) :=
  match broadcast_to (Nat.min bs (length buf)) src with
  | Raise e => Raise e
  | Ok src' => Ok (src' ++ drop bs buf)
  end.

(** [buf[:bs] = x] for a scalar [x]. *)
Definition fill_prefix {A} (bs : nat) (x : A) (buf : list A) : list A :=
  replicate (Nat.min bs (length buf)) x ++ drop bs buf.

(** [buf[:bs, 0] = x]; the buffers have at least one column. *)
Definition fill_prefix_col0 (bs : nat) (x : Z) (buf : list (list Z))
  : list (list Z) :=
  map (fun row => <[0%nat := x]> row) (take bs buf) ++ drop bs buf.

(** Row by row, [row_buf[:w] = row_src]. *)
Fixpoint assign_rows (w : nat) (src buf : list (list Z))
  : Result (list (list Z)) :=
  match src, buf with
  | row_src :: src', row_buf :: buf' =>
      match assign_prefix w row_src row_buf with
      | Raise e => Raise e
      | Ok row =>
          match assign_rows w src' buf' with
          | Raise e => Raise e
          | Ok rows => Ok (row :: rows)
          end
      end
  | _, _ => Ok []
  end.

(** [t.size(1)] of a matrix given by its rows; a tensor made from no row
    at all has one dimension only. *)
Definition size1 {A} (t : list (list A)) : Result nat :=
  match t with
  | [] => Raise IndexError
  | r :: _ => Ok (length r)
  end.

(** [buf[:bs, :src.size(1)] = src] *)
Definition assign_block (bs : nat) (src buf : list (list Z))
  : Result (list (list Z)) :=
  match size1 src with
  | Raise e => Raise e
  | Ok w =>
      match broadcast_to (Nat.min bs (length buf)) src with
      | Raise e => Raise e
      | Ok src' =>
          match assign_rows w src' (take bs buf) with
          | Raise e => Raise e
          | Ok rows => Ok (rows ++ drop bs buf)
          end
      end
  end.

(** [x.unsqueeze(1)] of a vector. *)
Definition unsqueeze1 {A} (x : list A) : list (list A) := map (fun a => [a]) x.

(** [out.squeeze(1)] of the hidden states of a one-position forward call:
    the model returns one hidden state per input position, so each row
    holds exactly one; a row of another length is outside the interface of
    the model and is reported as a shape error. *)
Fixpoint squeeze1 {A} (out : list (list A)) : Result (list A) :=
  match out with
  | [] => Ok []
  | [h] :: rest =>
      match squeeze1 rest with
      | Raise e => Raise e
      | Ok hs => Ok (h :: hs)
      end
  | _ :: _ => Raise ShapeError
  end.

(** Elementwise sum of two batches of embeddings of one shape. *)
Definition tensor_add (a b : list Emb) : Result (list Emb) :=
  if Nat.eqb (length a) (length b) then Ok (zip_with emb_add a b)
  else Raise ShapeError.

Fixpoint tensor_add2 (a b : list (list Emb)) : Result (list (list Emb)) :=
  match a, b with
  | [], [] => Ok []
  | ra :: a', rb :: b' =>
      match tensor_add ra rb with
      | Raise e => Raise e
      | Ok r =>
          match tensor_add2 a' b' with
          | Raise e => Raise e
          | Ok rs => Ok (r :: rs)
          end
      end
  | _, _ => Raise ShapeError
  end.

(** [torch.cat([a, b], dim=1)]: the batches must have as many rows. *)
Definition cat_dim1 {A} (a b : list (list A)) : Result (list (list A)) :=
  if Nat.eqb (length a) (length b) then Ok (zip_with app a b)
  else Raise ShapeError.

(** *** Forward calls *)

(** One call of [self.model], under the current forward context. *)
Definition call_model (input : ModelInput Emb Mask) : M (list (list Hidden)) :=
  ctx <- get_forward_context ;;
  ms <- gets mstate ;;
  let '(ms', out) := model_forward ms input ctx in
  (modify (set_mstate ms') ;;;
   ret out).

(** The input of a one-token forward call: the token ids, or on the
    embedding-driven branch the sum of the token embeddings and of the
    embeddings of the positions clamped at 0. *)
Definition embed_tokens (mods : TtsModules) (ids positions : list Z)
  : Result (list Emb) :=
  tensor_add (map (fst mods) ids)
             (map (pe_emb (snd mods)) (map (Z.max 0) positions)).

(** The direct forward call, which [_run_decode_with_graph] has twice in
    the same words. *)
Definition direct_forward (use_tts_embedding : bool)
    (tts_mel_embedding : option (Z -> Emb))
    (tts_text_pos_embedding : option (PosEmbedding Emb))
    (ids positions : list Z) : M (list Hidden) :=
  out <-
    (if use_tts_embedding then
       match tts_mel_embedding, tts_text_pos_embedding with
       | Some mel, Some pos =>
           inputs_embeds <- lift (embed_tokens (mel, pos) ids positions) ;;
           call_model (InputsEmbeds (unsqueeze1 inputs_embeds))
       | _, _ => raise AssertionError
       end
     else call_model (InputIds (unsqueeze1 ids) None)) ;;
  lift (squeeze1 out).

(** The context made of the first [bs] rows of the fixed buffers. *)
Definition buffer_context (bs : nat) (gv : GraphVars) : ForwardContext :=
  decode_context (take bs (gv_slot_mapping gv)) (take bs (gv_context_lens gv))
                 (take bs (gv_block_tables gv)).

Definition with_inputs_embeds (b : list Emb) (gv : GraphVars) : GraphVars :=
  mkGraphVars (gv_input_ids gv) (gv_positions gv) (gv_slot_mapping gv)
    (gv_context_lens gv) (gv_block_tables gv) (gv_outputs gv) b.
Definition with_outputs (o : list Hidden) (gv : GraphVars) : GraphVars :=
  mkGraphVars (gv_input_ids gv) (gv_positions gv) (gv_slot_mapping gv)
    (gv_context_lens gv) (gv_block_tables gv) o (gv_inputs_embeds gv).

(** The operations of a plan of size [bs]: the block of
    [_capture_cuda_graphs] that is run once as a warm-up and then recorded.
    It reads the first [bs] rows of the buffers and writes the first [bs]
    rows of the output buffer.  [graph.replay()] runs these operations
    again on what the buffers hold then. *)
Definition plan_forward (tts : option TtsModules) (bs : nat) (gv : GraphVars)
  : M GraphVars :=
  r <-
    match tts with
    | Some mods =>
        sum <- lift (embed_tokens mods (take bs (gv_input_ids gv))
                       (take bs (gv_positions gv))) ;;
        buf <- lift (assign_prefix bs sum (gv_inputs_embeds gv)) ;;
        out <- call_model (InputsEmbeds (unsqueeze1 (take bs buf))) ;;
        ret (with_inputs_embeds buf gv, out)
    | None =>
        out <- call_model (InputIds (unsqueeze1 (take bs (gv_input_ids gv))) None) ;;
        ret (gv, out)
    end ;;
  hs <- lift (squeeze1 (snd r)) ;;
  outs <- lift (assign_prefix bs hs (gv_outputs (fst r))) ;;
  ret (with_outputs outs (fst r)).

(** *** Capture *)

Definition max_bs : nat := 8.

Definition max_num_blocks (block_size : nat) : nat :=
  ((2048 + block_size - 1) / block_size)%nat.

Definition initial_graph_vars (block_size : nat) : GraphVars :=
  {| gv_input_ids := replicate max_bs 8192;
     gv_positions := replicate max_bs 1;
     gv_slot_mapping := replicate max_bs 0;
     gv_context_lens := replicate max_bs 0;
     gv_block_tables := replicate max_bs (replicate (max_num_blocks block_size) 0);
     gv_outputs := replicate max_bs hidden_zero;
     gv_inputs_embeds := replicate max_bs emb_zero |}.

(** The synthetic values written before a plan of size [bs] is captured. *)
Definition synthetic_inputs (bs : nat) (gv : GraphVars) : Result GraphVars :=
  match assign_prefix bs (map Z.of_nat (seq 0 bs)) (gv_slot_mapping gv) with
  | Raise e => Raise e
  | Ok slots =>
      Ok (mkGraphVars (gv_input_ids gv) (gv_positions gv) slots
            (fill_prefix bs (Z.of_nat bs + 1) (gv_context_lens gv))
            (fill_prefix_col0 bs 0 (gv_block_tables gv))
            (gv_outputs gv) (gv_inputs_embeds gv))
  end.

(** [for bs in reversed(self.graph_bs)], over the sizes still to capture.
    The warm-up call runs the operations; the recording that follows runs
    nothing on the device and leaves the buffers as the warm-up left them. *)
Fixpoint capture_loop (tts : option TtsModules) (sizes : list nat)
    (gv : GraphVars) : M GraphVars :=
  match sizes with
  | [] => ret gv
  | bs :: rest =>
      gv1 <- lift (synthetic_inputs bs gv) ;;
      (set_forward_context (buffer_context bs gv1) ;;;
       gv2 <- plan_forward tts bs gv1 ;;
       (modify (fun e => set_graphs (<[bs := mkGraph tts]> (graphs e)) e) ;;;
        reset_forward_context ;;;
        capture_loop tts rest gv2))
  end.

Definition _capture_cuda_graphs
    (tts_mel_embedding : option (Z -> Emb))
    (tts_text_pos_embedding : option (PosEmbedding Emb)) : M unit :=
  bsz <- gets block_size ;;
  if Nat.eqb bsz 0 then raise ZeroDivisionError
  else
    (modify (set_graph_bs [1%nat]) ;;;
     let use_tts :=
       match tts_mel_embedding, tts_text_pos_embedding with
       | Some mel, Some pos => Some (mel, pos)
       | _, _ => None
       end in
     sizes <- gets graph_bs ;;
     gv <- capture_loop use_tts (rev sizes) (initial_graph_vars bsz) ;;
     modify (set_graph_vars (Some gv))).

(** *** One decode step through the plan cache *)

(** A write into the fixed buffers.  The context installed before the
    writes holds views of the first [gbs] rows of the buffers, so it shows
    each write at once: it is installed again after the write. *)
Definition write_buffers (gbs : nat) (f : GraphVars -> Result GraphVars)
    (gv : GraphVars) : M GraphVars :=
  gv' <- lift (f gv) ;;
  (modify (set_graph_vars (Some gv')) ;;;
   set_forward_context (buffer_context gbs gv') ;;;
   ret gv').

Definition with_input_ids (b : list Z) (gv : GraphVars) : GraphVars :=
  mkGraphVars b (gv_positions gv) (gv_slot_mapping gv)
    (gv_context_lens gv) (gv_block_tables gv) (gv_outputs gv)
    (gv_inputs_embeds gv).
Definition with_positions (b : list Z) (gv : GraphVars) : GraphVars :=
  mkGraphVars (gv_input_ids gv) b (gv_slot_mapping gv)
    (gv_context_lens gv) (gv_block_tables gv) (gv_outputs gv)
    (gv_inputs_embeds gv).
Definition with_slot_mapping (b : list Z) (gv : GraphVars) : GraphVars :=
  mkGraphVars (gv_input_ids gv) (gv_positions gv) b
    (gv_context_lens gv) (gv_block_tables gv) (gv_outputs gv)
    (gv_inputs_embeds gv).
Definition with_context_lens (b : list Z) (gv : GraphVars) : GraphVars :=
  mkGraphVars (gv_input_ids gv) (gv_positions gv) (gv_slot_mapping gv)
    b (gv_block_tables gv) (gv_outputs gv) (gv_inputs_embeds gv).
Definition with_block_tables (b : list (list Z)) (gv : GraphVars) : GraphVars :=
  mkGraphVars (gv_input_ids gv) (gv_positions gv) (gv_slot_mapping gv)
    (gv_context_lens gv) b (gv_outputs gv) (gv_inputs_embeds gv).

(** [buf[:bs] = src] where [src] is an attribute of the context that may
    be [None]. *)
Definition assign_from {A} (bs : nat) (src : option (list A)) (buf : list A)
  : Result (list A) :=
  match src with
  | None => Raise TypeError
  | Some x => assign_prefix bs x buf
  end.

(** The seven writes that precede [graph.replay()], in the order of the
    source. *)
Definition load_buffers (gbs bs : nat) (ids positions : list Z)
    (context : ForwardContext) (gv : GraphVars) : M GraphVars :=
  gv <- write_buffers gbs (fun gv =>
          match assign_prefix bs ids (gv_input_ids gv) with
          | Raise e => Raise e
          | Ok b => Ok (with_input_ids b gv)
          end) gv ;;
  gv <- write_buffers gbs (fun gv =>
          match assign_prefix bs positions (gv_positions gv) with
          | Raise e => Raise e
          | Ok b => Ok (with_positions b gv)
          end) gv ;;
  gv <- write_buffers gbs (fun gv =>
          Ok (with_slot_mapping
                (replicate (length (gv_slot_mapping gv)) (-1)) gv)) gv ;;
  gv <- write_buffers gbs (fun gv =>
          match assign_from bs (slot_mapping context) (gv_slot_mapping gv) with
          | Raise e => Raise e
          | Ok b => Ok (with_slot_mapping b gv)
          end) gv ;;
  gv <- write_buffers gbs (fun gv =>
          Ok (with_context_lens
                (replicate (length (gv_context_lens gv)) 0) gv)) gv ;;
  gv <- write_buffers gbs (fun gv =>
          match assign_from bs (context_lens context) (gv_context_lens gv) with
          | Raise e => Raise e
          | Ok b => Ok (with_context_lens b gv)
          end) gv ;;
  write_buffers gbs (fun gv =>
    match block_tables context with
    | None => Raise AttributeError
    | Some c_tables =>
        match assign_block bs c_tables (gv_block_tables gv) with
        | Raise e => Raise e
        | Ok b => Ok (with_block_tables b gv)
        end
    end) gv.

Definition _run_decode_with_graph (ids positions : list Z)
    (context : ForwardContext)
    (tts_mel_embedding : option (Z -> Emb))
    (tts_text_pos_embedding : option (PosEmbedding Emb)) : M (list Hidden) :=
  let bs := length ids in
  mode <- gets tts_mode ;;
  let use_tts_embedding := match mode with Some true => true | _ => false end in
  cuda <- gets use_cuda_graph ;;
  gs <- gets graphs ;;
  if negb cuda || bool_decide (dom gs = ∅) then
    direct_forward use_tts_embedding tts_mel_embedding tts_text_pos_embedding
      ids positions
  else
    sizes <- gets graph_bs ;;
    match List.find (fun x => Nat.leb bs x) sizes with
    | None =>
        direct_forward use_tts_embedding tts_mel_embedding
          tts_text_pos_embedding ids positions
    | Some gbs =>
        match gs !! gbs with
        | None => raise KeyError
        | Some graph =>
            vars <- gets graph_vars ;;
            match vars with
            | None => raise GraphVarsUninit
            | Some gv =>
                (set_forward_context (buffer_context gbs gv) ;;;
                 gv1 <- load_buffers gbs bs ids positions context gv ;;
                 gv2 <- plan_forward (g_tts graph) gbs gv1 ;;
                 (modify (set_graph_vars (Some gv2)) ;;;
                  ret (take bs (gv_outputs gv2))))
            end
        end
    end.

(** *** Token selection *)

(** [torch.argmax] along the last dimension: the index of the first
    greatest element of a row; an empty row has none. *)
Fixpoint argmax_from (best_i : nat) (best : Logit) (i : nat)
    (row : list Logit) : nat :=
  match row with
  | [] => best_i
  | x :: rest =>
      if logit_gtb x best then argmax_from i x (S i) rest
      else argmax_from best_i best (S i) rest
  end.

Definition argmax_row (row : list Logit) : Result Z :=
  match row with
  | [] => Raise IndexError
  | x :: rest => Ok (Z.of_nat (argmax_from 0 x 1 rest))
  end.

Fixpoint argmax (logits : list (list Logit)) : Result (list Z) :=
  match logits with
  | [] => Ok []
  | row :: rest =>
      match argmax_row row with
      | Raise e => Raise e
      | Ok t =>
          match argmax rest with
          | Raise e => Raise e
          | Ok ts => Ok (t :: ts)
          end
      end
  end.

(** [temperature > 0] *)
Definition temperature_positive (temperature : Q) : bool :=
  negb (Qle_bool temperature 0).

(** The sampler when the temperature is positive, the arg-max of the raw
    logits otherwise; the result is the list [tolist()] gives. *)
Definition select_tokens (temperature : Q) (requests : list Seq)
    (logits : list (list Logit)) : M (list Z) :=
  let temperatures := _prepare_sample requests temperature in
  if temperature_positive temperature then
    r <- gets rng ;;
    let '(r', tokens) := sampler r logits temperatures in
    (modify (set_rng r') ;;;
     ret tokens)
  else lift (argmax logits).

(** [stop_tokens and token_id in stop_tokens] *)
Definition stop_hit (stop_tokens : option (list Z)) (token_id : Z) : bool :=
  match stop_tokens with
  | None => false
  | Some l => existsb (Z.eqb token_id) l
  end.

(** *** [generate] *)

(** A batch of embeddings [batch, positions, hidden]: its rows and its
    [size(1)]. *)
Record EmbTensor : Type := mkEmbTensor {
  e_rows : list (list Emb);
  e_cols : nat
}.

(** The arguments of [generate]; [top_k] and [top_p] are never read. *)
Record GenArgs : Type := mkGenArgs {
  input_ids : Tensor2;
  max_new_tokens : Z;
  temperature : Q;
  stop_tokens : option (list Z);
  attention_mask : option Mask;
  tts_embeddings : option EmbTensor;
  tts_mel_embedding : option (Z -> Emb);
  tts_text_pos_embedding : option (PosEmbedding Emb)
}.

Definition batch_size_of (a : GenArgs) : nat := length (t_rows (input_ids a)).

Definition actual_seq_len (a : GenArgs) : nat :=
  match tts_embeddings a with
  | Some te => (e_cols te + 1)%nat
  | None => t_cols (input_ids a)
  end.

(** The token history a sequence is created with: the row of the prompt,
    or in the embedding-driven mode placeholders 1 whose last slot holds the
    last token of the row. *)
Definition initial_token_ids (a : GenArgs) (row : list Z) : Result (list Z) :=
  let n := actual_seq_len a in
  match tts_embeddings a with
  | Some _ =>
      if Nat.ltb 0 n then
        match (if Nat.ltb 0 (t_cols (input_ids a)) then py_last row else Ok 1) with
        | Raise e => Raise e
        | Ok x => Ok (<[(n - 1)%nat := x]> (replicate n 1))
        end
      else Ok row
  | None => Ok row
  end.

(** [for i in range(batch_size)]: create, allocate, collect. *)
Fixpoint admit_loop (a : GenArgs) (rows : list (list Z)) (sequences : list Seq)
  : M (list Seq) :=
  match rows with
  | [] => ret sequences
  | row :: rest =>
      toks <- lift (initial_token_ids a row) ;;
      k <- gets kv_manager ;;
      let '(k', req) := kv_allocate k (Seq_new toks) in
      (modify (set_kv_manager k') ;;;
       admit_loop a rest (sequences ++ [req]))
  end.

(** The forward call of the prefill: over the conditioning embeddings
    followed by the embedded start token when the three embedding arguments
    are given, over the token ids otherwise. *)
Definition prefill_forward (a : GenArgs) : M (list (list Hidden)) :=
  match tts_embeddings a, tts_mel_embedding a, tts_text_pos_embedding a with
  | Some te, Some mel, Some pos =>
      start_token_id <-
        lift (if Nat.ltb 0 (t_cols (input_ids a)) then
                match t_rows (input_ids a) !! 0%nat with
                | None => Raise IndexError
                | Some row => py_last row
                end
              else Ok 8192) ;;
      let start_emb := [[mel start_token_id]] in
      start_emb <- lift (tensor_add2 start_emb (pe_forward pos start_emb)) ;;
      full_embeddings <- lift (cat_dim1 (e_rows te) start_emb) ;;
      call_model (InputsEmbeds full_embeddings)
  | _, _, _ =>
      call_model (InputIds (t_rows (input_ids a)) (attention_mask a))
  end.

(** [hidden_states[:, -1, :]] *)
Fixpoint last_hidden (hidden_states : list (list Hidden))
  : Result (list Hidden) :=
  match hidden_states with
  | [] => Ok []
  | row :: rest =>
      match py_last row with
      | Raise e => Raise e
      | Ok h =>
          match last_hidden rest with
          | Raise e => Raise e
          | Ok hs => Ok (h :: hs)
          end
      end
  end.

(** [generated_tokens[i].append(token_id)] *)
Definition append_generated (i : nat) (token_id : Z)
    (generated_tokens : list (list Z)) : Result (list (list Z)) :=
  match generated_tokens !! i with
  | None => Raise IndexError
  | Some g => Ok (<[i := g ++ [token_id]]> generated_tokens)
  end.

(** The loop over the first tokens, from index [i] on. *)
Fixpoint first_token_loop (stop : option (list Z)) (i : nat)
    (tokens : list Z) (generated_tokens : list (list Z))
    (hit_stop_on_first : bool) : Result (list (list Z) * bool) :=
  match tokens with
  | [] => Ok (generated_tokens, hit_stop_on_first)
  | token_id :: rest =>
      if stop_hit stop token_id then
        first_token_loop stop (S i) rest generated_tokens true
      else
        match append_generated i token_id generated_tokens with
        | Raise e => Raise e
        | Ok g => first_token_loop stop (S i) rest g hit_stop_on_first
        end
  end.

(** [for req in sequences: self.kv_manager.remove_seq(req)], on the
    sequences held in [current_sequences]; the list is the one the local
    [sequences] names. *)
Fixpoint remove_loop (k : KV) (sequences : list Seq) : KV * list Seq :=
  match sequences with
  | [] => (k, [])
  | req :: rest =>
      let '(k1, req') := kv_remove_seq k req in
      let '(k2, rest') := remove_loop k1 rest in
      (k2, req' :: rest')
  end.

(** Releases every sequence and empties [current_sequences]; returns the
    sequences as the local [sequences] still names them. *)
Definition release_sequences : M (list Seq) :=
  sequences <- gets current_sequences ;;
  k <- gets kv_manager ;;
  let '(k', sequences') := remove_loop k sequences in
  (modify (set_kv_manager k') ;;;
   modify (set_sequences []) ;;;
   ret sequences').

(** [sequences[i].append_token(token_id)] then
    [self.kv_manager.append_to_seq(sequences[i])]. *)
Definition advance_sequence (i : nat) (token_id : Z) : M unit :=
  sequences <- gets current_sequences ;;
  match sequences !! i with
  | None => raise IndexError
  | Some req =>
      k <- gets kv_manager ;;
      let '(k', req') := kv_append_to_seq k (append_token req token_id) in
      (modify (set_kv_manager k') ;;;
       modify (set_sequences (<[i := req']> sequences)))
  end.

(** [for i, req in enumerate(sequences)] after the first token, from index
    [i] on. *)
Fixpoint append_first_loop (first_token_list : list Z) (i n : nat) : M unit :=
  match n with
  | O => ret tt
  | S n' =>
      match first_token_list !! i with
      | None => raise IndexError
      | Some token_id =>
          (advance_sequence i token_id ;;;
           append_first_loop first_token_list (S i) n')
      end
  end.

(** The rows of the early return: the prompt rows with what was generated. *)
Fixpoint early_rows (rows : list (list Z)) (i : nat)
    (generated_tokens : list (list Z)) : Result (list (list Z)) :=
  match rows with
  | [] => Ok []
  | row :: rest =>
      match generated_tokens !! i with
      | None => Raise IndexError
      | Some g =>
          match early_rows rest (S i) generated_tokens with
          | Raise e => Raise e
          | Ok out => Ok ((row ++ g) :: out)
          end
      end
  end.

(** The rows of the normal return, for the indices [i], [i+1], .. [i+n-1]. *)
Fixpoint final_rows (sequences : list Seq) (generated_tokens : list (list Z))
    (i n : nat) : Result (list (list Z)) :=
  match n with
  | O => Ok []
  | S n' =>
      match sequences !! i, generated_tokens !! i with
      | Some req, Some g =>
          match final_rows sequences generated_tokens (S i) n' with
          | Raise e => Raise e
          | Ok out =>
              Ok ((take (num_prompt_tokens req) (token_ids req) ++ g) :: out)
          end
      | _, _ => Raise IndexError
      end
  end.

(** The part of a decode step up to the logits and the reset of the
    context. *)
Definition decode_logits (a : GenArgs) : M (list (list Logit)) :=
  sequences <- gets current_sequences ;;
  prepared <- _prepare_decode sequences ;;
  if Nat.ltb 8 (batch_size_of a) then raise FatalBatchCeiling
  else
    context <- get_forward_context ;;
    hidden_states <-
      _run_decode_with_graph (fst prepared) (snd prepared) context
        (tts_mel_embedding a) (tts_text_pos_embedding a) ;;
    let logits := compute_logits hidden_states in
    (reset_forward_context ;;;
     ret logits).

(** The part of a decode step up to [next_token_list]. *)
Definition decode_next_tokens (a : GenArgs) : M (list Z) :=
  logits <- decode_logits a ;;
  sequences <- gets current_sequences ;;
  select_tokens (temperature a) sequences logits.

(** The loop over [next_token_list], from index [i] on. *)
Fixpoint decode_token_loop (stop : option (list Z)) (i : nat)
    (tokens : list Z) (generated_tokens : list (list Z)) (should_stop : bool)
  : M (list (list Z) * bool) :=
  match tokens with
  | [] => ret (generated_tokens, should_stop)
  | token_id :: rest =>
      if stop_hit stop token_id then
        decode_token_loop stop (S i) rest generated_tokens true
      else
        (advance_sequence i token_id ;;;
         g <- lift (append_generated i token_id generated_tokens) ;;
         decode_token_loop stop (S i) rest g should_stop)
  end.

(** [for step in range(remaining_tokens)], with [remaining] steps left. *)
Fixpoint decode_loop (a : GenArgs) (remaining : nat)
    (generated_tokens : list (list Z)) : M (list (list Z)) :=
  match remaining with
  | O => ret generated_tokens
  | S remaining' =>
      next_token_list <- decode_next_tokens a ;;
      r <- decode_token_loop (stop_tokens a) 0 next_token_list
             generated_tokens false ;;
      if snd r then ret (fst r)
      else decode_loop a remaining' (fst r)
  end.

(** [generate] up to the logits of the prefill. *)
Definition prefill_logits (a : GenArgs) : M (list (list Logit)) :=
  let tts := match tts_embeddings a with Some _ => true | None => false end in
  (modify (set_tts tts (if tts then t_cols (input_ids a) else 0%nat)) ;;;
   cuda <- gets use_cuda_graph ;;
   captured <- gets graph_captured ;;
   ((if cuda && negb captured then
       (_capture_cuda_graphs (tts_mel_embedding a) (tts_text_pos_embedding a) ;;;
        modify (set_graph_captured true))
     else ret tt) ;;;
    sequences <- admit_loop a (t_rows (input_ids a)) [] ;;
    (modify (set_sequences sequences) ;;;
     _ <- _prepare_prefill sequences ;;
     hidden_states <- prefill_forward a ;;
     (reset_forward_context ;;;
      last <- lift (last_hidden hidden_states) ;;
      ret (compute_logits last))))).

(** The return taken when a first token is a stop token. *)
Definition generate_early (a : GenArgs) (generated_tokens : list (list Z))
  : M (list (list Z)) :=
  _ <- release_sequences ;;
  output_ids <- lift (early_rows (t_rows (input_ids a)) 0 generated_tokens) ;;
  lift (tensor2d output_ids).

(** The end of [generate], after the decode loop. *)
Definition generate_finish (a : GenArgs) (generated_tokens : list (list Z))
  : M (list (list Z)) :=
  sequences <- release_sequences ;;
  output_ids <-
    lift (final_rows sequences generated_tokens 0 (batch_size_of a)) ;;
  output <- lift (tensor2d output_ids) ;;
  if Nat.eqb (length output) (batch_size_of a) then ret output
  else raise AssertionError.

Definition generate (a : GenArgs) : M (list (list Z)) :=
  logits <- prefill_logits a ;;
  sequences <- gets current_sequences ;;
  first_token_list <- select_tokens (temperature a) sequences logits ;;
  r <- lift (first_token_loop (stop_tokens a) 0 first_token_list
               (replicate (batch_size_of a) []) false) ;;
  if snd r then generate_early a (fst r)
  else
    (append_first_loop first_token_list 0 (length sequences) ;;;
     generated_tokens <-
       decode_loop a (Z.to_nat (max_new_tokens a - 1)) (fst r) ;;
     generate_finish a generated_tokens).

End Engine.

(** ** The words of the specification *)

(** Invariants of a sequence (section 3): no more cached tokens than
    tokens, and a block list that covers the blocks the sequence counts. *)
Definition cached_within (req : Seq) : Prop :=
  (num_cached_tokens req <= seq_len req)%nat.

Definition blocks_cover (req : Seq) : Prop :=
  (num_blocks req <= length (block_table req))%nat.

(** Query and key lengths of a sequence in a prefill. *)
Definition query_len (req : Seq) : Z :=
  Z.of_nat (seq_len req) - Z.of_nat (num_cached_tokens req).
Definition key_len (req : Seq) : Z := Z.of_nat (seq_len req).

Definition sum_Z (l : list Z) : Z := fold_right Z.add 0 l.

(** The running sums of a list of lengths, from [start] on: a cumulative
    length array is [start :: running_sums start lens] with [start = 0]. *)
Fixpoint running_sums (start : Z) (lens : list Z) : list Z :=
  match lens with
  | [] => []
  | x :: rest => (start + x) :: running_sums (start + x) rest
  end.

(** The cells of a block: its first [count] cells, in order. *)
Definition block_cells (block_size : nat) (block_id : Z) (count : nat) : list Z :=
  map (fun k => block_id * Z.of_nat block_size + Z.of_nat k) (seq 0 count).

(** The blocks of a sequence that are not cached yet. *)
Definition new_blocks (req : Seq) : list Z :=
  drop (num_cached_blocks req) (take (num_blocks req) (block_table req)).

(** The cells a prefill writes for a sequence: every cell of each new
    block but the final one, and the filled cells of the final block. *)
Definition new_block_cells (block_size : nat) (req : Seq) : list Z :=
  concat (map (fun b => block_cells block_size b block_size)
              (removelast (new_blocks req)))
  ++ match last (new_blocks req) with
     | Some b => block_cells block_size b (last_block_num_tokens req)
     | None => []
     end.

(** The padded block-table matrix, in the words of the specification. *)
Definition longest_block_list (requests : list Seq) : nat :=
  max_list (map (fun req => length (block_table req)) requests).

Definition padded_block_tables (requests : list Seq) : list (list Z) :=
  map (fun req =>
         block_table req ++
         replicate (longest_block_list requests - length (block_table req)) (-1))
      requests.

(** The last block of a sequence that has one. *)
Definition last_block_id (req : Seq) : Z := List.last (block_table req) 0.

(** What a forward call is given, row by row: the number of positions. *)
Definition input_shape {E K} (input : ModelInput E K) : list nat :=
  match input with
  | InputIds ids _ => map length ids
  | InputsEmbeds embeds => map length embeds
  end.

(** The prompt of a sequence, as the output of [generate] reads it. *)
Definition prompt_of (req : Seq) : list Z :=
  take (num_prompt_tokens req) (token_ids req).

(** A sequence whose prompt is [p]: [p] opens its token history and is
    counted as its prompt. *)
Definition has_prompt (req : Seq) (p : list Z) : Prop :=
  num_prompt_tokens req = length p /\ exists rest, token_ids req = p ++ rest.

(** Modelled from the spec: the laws of the sequence class and of the cache
    manager that the output of [generate] rests on (sections 3 and 6): a
    sequence is created with its tokens as history, all counted as prompt;
    [append_token] puts one token at the end of the history and leaves the
    prompt count; the calls of the cache manager change neither the history
    nor the prompt count. *)
Record SeqLaws `{C : Collab} : Prop := mkSeqLaws {
  new_tokens : forall l, token_ids (Seq_new l) = l;
  new_prompt_count : forall l, num_prompt_tokens (Seq_new l) = length l;
  append_tokens :
    forall req t, token_ids (append_token req t) = token_ids req ++ [t];
  append_prompt_count :
    forall req t,
      num_prompt_tokens (append_token req t) = num_prompt_tokens req;
  allocate_keeps :
    forall k req,
      token_ids (snd (kv_allocate k req)) = token_ids req /\
      num_prompt_tokens (snd (kv_allocate k req)) = num_prompt_tokens req;
  append_to_seq_keeps :
    forall k req,
      token_ids (snd (kv_append_to_seq k req)) = token_ids req /\
      num_prompt_tokens (snd (kv_append_to_seq k req)) = num_prompt_tokens req;
  remove_keeps :
    forall k req,
      token_ids (snd (kv_remove_seq k req)) = token_ids req /\
      num_prompt_tokens (snd (kv_remove_seq k req)) = num_prompt_tokens req
}.
Arguments SeqLaws C : clear implicits.

(** Modelled from the spec: the laws of the cache manager that keep the
    preparers from failing (section 3, "cache-block list length always
    sufficient to hold the tokens"): a sequence that was just allocated has
    a block list that covers its blocks, and a sequence that was given a
    token and handed to [append_to_seq] holds at least one block. *)
Record CacheLaws `{C : Collab} : Prop := mkCacheLaws {
  allocate_covers :
    forall k l, blocks_cover (snd (kv_allocate k (Seq_new l)));
  append_has_block :
    forall k req t,
      block_table (snd (kv_append_to_seq k (append_token req t))) <> []
}.
Arguments CacheLaws C : clear implicits.

(** Modelled from the spec: the logits projection gives one row of logits
    per hidden state, over a vocabulary that is not empty (section 6). *)
Definition logits_per_row `{C : Collab} : Prop :=
  forall hs,
    length (compute_logits hs) = length hs /\
    Forall (fun row => row <> []) (compute_logits hs).
Arguments logits_per_row C : clear implicits.

(** Modelled from the spec: the model returns one hidden state per input
    position (section 6). *)
Definition model_keeps_shape `{C : Collab} : Prop :=
  forall ms input ctx,
    map length (snd (model_forward ms input ctx)) = input_shape input.
Arguments model_keeps_shape C : clear implicits.

(** An assumption on the attention layer of the model, which is outside
    the engine: of a block-table row, a decode forward call reads the
    blocks that hold the context of the row, the first
    [ceil(context_len / block_size)] entries; entries after them do not
    influence it. *)
Definition used_blocks (block_size : nat) (context_len : Z) (row : list Z)
  : list Z :=
  take (Z.to_nat ((context_len + Z.of_nat block_size - 1) / Z.of_nat block_size)) row.

Definition same_used_blocks (block_size : nat) (c1 c2 : ForwardContext) : Prop :=
  is_prefill c1 = is_prefill c2 /\
  slot_mapping c1 = slot_mapping c2 /\
  context_lens c1 = context_lens c2 /\
  exists lens t1 t2,
    context_lens c1 = Some lens /\
    block_tables c1 = Some t1 /\ block_tables c2 = Some t2 /\
    length t1 = length t2 /\
    forall i len r1 r2,
      lens !! i = Some len -> t1 !! i = Some r1 -> t2 !! i = Some r2 ->
      used_blocks block_size len r1 = used_blocks block_size len r2.

Definition model_reads_used_blocks `{C : Collab} (block_size : nat) : Prop :=
  forall ms input c1 c2,
    same_used_blocks block_size c1 c2 ->
    model_forward ms input c1 = model_forward ms input c2.
Arguments model_reads_used_blocks C block_size : clear implicits.

(** The fixed buffers as a capture allocates them: [max_bs] rows each, and
    block-table rows of [width] columns. *)
Definition buffers_ready `{C : Collab} (width : nat) (gv : GraphVars) : Prop :=
  length (gv_input_ids gv) = max_bs /\
  length (gv_positions gv) = max_bs /\
  length (gv_slot_mapping gv) = max_bs /\
  length (gv_context_lens gv) = max_bs /\
  length (gv_block_tables gv) = max_bs /\
  length (gv_outputs gv) = max_bs /\
  length (gv_inputs_embeds gv) = max_bs /\
  Forall (fun row => length row = width) (gv_block_tables gv).

(** The branch a direct call takes in the current mode. *)
Definition uses_embeddings `{C : Collab} (e : Engine) : bool :=
  match tts_mode e with Some true => true | _ => false end.

(** The plan was recorded on the branch a direct call takes now, with the
    embedding modules the call is given. *)
Definition plan_branch_agrees `{C : Collab} (e : Engine) (g : Graph)
    (mel : option (Z -> Emb)) (pos : option (PosEmbedding Emb)) : Prop :=
  match tts_mode e with
  | Some true =>
      exists m po, mel = Some m /\ pos = Some po /\ g_tts g = Some (m, po)
  | _ => g_tts g = None
  end.

(** The sequences the engine holds have the prompts [ps], in order. *)
Definition holds_prompts `{C : Collab} (ps : list (list Z)) (e : Engine) : Prop :=
  Forall2 has_prompt (current_sequences e) ps.

(** A call keeps a property of the engine state. *)
Definition keeps `{C : Collab} {A} (P : Engine -> Prop) (m : M A) : Prop :=
  forall e, P e -> P (snd (m e)).

(** A call leaves a component [f] of the engine state as it found it. *)
Definition preserves `{C : Collab} {A X} (f : Engine -> X) (m : M A) : Prop :=
  forall e, f (snd (m e)) = f e.

(** A greedy run of [n] decode steps without a stop: the logits of the
    successive steps, each computed by [decode_logits] in the state the
    step before left, and the state and generated tokens at the end. *)
Inductive greedy_steps `{C : Collab} (a : GenArgs)
  : nat -> Engine -> list (list Z) -> list (list (list Logit)) ->
    Engine -> list (list Z) -> Prop :=
| greedy_done e g : greedy_steps a 0 e g [] e g
| greedy_step n e g logits e1 tokens g1 e2 rest e' g' :
    decode_logits a e = (Ok logits, e1) ->
    argmax logits = Ok tokens ->
    decode_token_loop (stop_tokens a) 0 tokens g false e1 = (Ok (g1, false), e2) ->
    greedy_steps a n e2 g1 rest e' g' ->
    greedy_steps a (S n) e g (logits :: rest) e' g'.

(** The arg-max of row [i] of a logits matrix, as [generate] appends it. *)
Definition argmax_at `{C : Collab} (i : nat) (logits : list (list Logit)) : option Z :=
  match logits !! i with
  | Some row => match argmax_row row with Ok t => Some t | Raise _ => None end
  | None => None
  end.

(** ** Words for the properties of the preparers and of the end of a call *)

(** A sequence whose block list is not empty and is shorter than the
    number of blocks it counts, with blocks still to write: the prefill
    indexes its block list out of range. *)
Definition lacks_block (req : Seq) : Prop :=
  block_table req <> [] /\
  (num_cached_blocks req < num_blocks req)%nat /\
  (length (block_table req) < num_blocks req)%nat.

(** The greatest of a list of lengths, and 0 when there is none: the
    value the running maximum of a prefill ends with. *)
Definition max_from_zero (l : list Z) : Z := fold_right Z.max 0 l.

(** A call that, when it returns, leaves the engine in a state with [Q]. *)
Definition ensures `{C : Collab} {A} (Q : Engine -> Prop) (m : M A) : Prop :=
  forall e r e', m e = (Ok r, e') -> Q e'.

(** A call that, when it returns from a state with [Q], leaves a state
    with [Q]. *)
Definition returns_keeping `{C : Collab} {A} (Q : Engine -> Prop) (m : M A)
  : Prop :=
  forall e r e', Q e -> m e = (Ok r, e') -> Q e'.

(** No forward context is installed. *)
Definition context_reset `{C : Collab} (e : Engine) : Prop :=
  current_context e = empty_context.

(** ** A mock of the collaborators

    A small instance of [Collab] on which the engine runs inside Rocq, as a
    test would mock the model: blocks of a fixed capacity handed out in
    order by a counter, a device state that counts the forward calls, and a
    model that returns for each row, as its hidden state, the logits a table
    gives for the call and the row. *)
Module Mock.

Definition capacity : nat := 4.

Definition blocks_for (n : nat) : nat := ((n + capacity - 1) / capacity)%nat.

(** A sequence over [tokens], keeping the prompt count, the cached count
    and the block list of [req]. *)
Definition with_tokens (tokens : list Z) (req : Seq) : Seq :=
  mkSeq tokens (List.last tokens 0) (num_prompt_tokens req)
    (num_cached_tokens req) (block_table req) (num_cached_blocks req)
    (blocks_for (length tokens))
    (length tokens - (blocks_for (length tokens) - 1) * capacity).

Definition with_blocks (blocks : list Z) (req : Seq) : Seq :=
  mkSeq (token_ids req) (last_token req) (num_prompt_tokens req)
    (num_cached_tokens req) blocks (num_cached_blocks req)
    (num_blocks req) (last_block_num_tokens req).

Definition new_seq (tokens : list Z) : Seq :=
  with_tokens tokens (mkSeq [] 0 (length tokens) 0 [] 0 0 0).

Definition push_token (req : Seq) (t : Z) : Seq :=
  with_tokens (token_ids req ++ [t]) req.

(** The manager's state is the number of blocks handed out so far. *)
Definition allocate (k : nat) (req : Seq) : nat * Seq :=
  ((k + num_blocks req)%nat,
   with_blocks (map Z.of_nat (seq k (num_blocks req))) req).

Definition append_to_seq (k : nat) (req : Seq) : nat * Seq :=
  if Nat.ltb (length (block_table req)) (num_blocks req)
  then (S k, with_blocks (block_table req ++ [Z.of_nat k]) req)
  else (k, req).

Definition remove_seq (k : nat) (req : Seq) : nat * Seq :=
  (k, with_blocks [] req).

(** The model: call number [ms] gives row [i] the hidden state
    [table ms i ctx] at each of its positions. *)
Definition rows_of {E K} (input : ModelInput E K) : list nat :=
  input_shape input.

Definition forward (table : nat -> nat -> ForwardContext -> list Z)
    (ms : nat) (input : ModelInput Z unit) (ctx : ForwardContext)
  : nat * list (list (list Z)) :=
  (S ms,
   imap (fun i n => replicate n (table ms i ctx)) (rows_of input)).

Definition collab (table : nat -> nat -> ForwardContext -> list Z) : Collab :=
  {| KV := nat; MState := nat; Rng := nat;
     Hidden := list Z; Logit := Z; Emb := Z; Mask := unit;
     Seq_new := new_seq;
     append_token := push_token;
     kv_allocate := allocate;
     kv_append_to_seq := append_to_seq;
     kv_remove_seq := remove_seq;
     model_forward := forward table;
     compute_logits := fun hs => hs;
     logit_gtb := Z.gtb;
     sampler := fun r logits _ => (S r, map (fun _ => Z.of_nat r) logits);
     hidden_zero := [];
     emb_zero := 0;
     emb_add := Z.add |}.

(** A fresh engine over the mock. *)
Definition engine (table : nat -> nat -> ForwardContext -> list Z)
    (block_size : nat) (use_cuda_graph : bool) : @Engine (collab table) :=
  @mkEngine (collab table) block_size use_cuda_graph
    (0%nat : @KV (collab table)) (0%nat : @MState (collab table))
    (0%nat : @Rng (collab table))
    empty_context [] ∅ None false [] None 0.

(** Logits that do not depend on the context: step [ms], row [i]. *)
Definition fixed (steps : list (list (list Z))) (ms i : nat)
    (_ : ForwardContext) : list Z :=
  default [] (default [] (steps !! ms) !! i).

(** Logits read from the context as a paged attention reads it: the
    blocks that hold the context of the row, the context length, and the
    number of the call. *)
Definition paged (block_size : nat) (ms i : nat) (ctx : ForwardContext)
  : list Z :=
  match context_lens ctx, block_tables ctx with
  | Some lens, Some tables =>
      match lens !! i, tables !! i with
      | Some len, Some row =>
          used_blocks block_size len row ++ [len; Z.of_nat ms]
      | _, _ => []
      end
  | _, _ => []
  end.

Definition args (table : nat -> nat -> ForwardContext -> list Z)
    (prompts : list (list Z)) (cols : nat) (max_new : Z) (temp : Q)
    (stop : option (list Z)) : @GenArgs (collab table) :=
  @mkGenArgs (collab table) (mkTensor2 prompts cols) max_new temp stop
    None None None None.

End Mock.

(** The end-to-end scenario of the specification on the mock: prompt
    [5, 9, 2], three new tokens, temperature 0, no stop token, logits fixed
    per step with arg-maxes 2, 0 and 3. *)
Example greedy_scenario :
  let table := Mock.fixed [[[1; 2; 7; 3]]; [[9; 1; 1; 1]]; [[0; 0; 0; 4]]] in
  fst (generate (Mock.args table [[5; 9; 2]] 3 3 0 None)
         (Mock.engine table Mock.capacity false))
  = Ok [[5; 9; 2; 2; 0; 3]].
Proof. vm_compute. reflexivity. Qed.

(** ** Facts about the helpers *)

Lemma tensor2d_rectangular {A} (rows : list (list A)) (n : nat) :
  Forall (fun r => length r = n) rows -> tensor2d rows = Ok rows.
Proof.
  destruct rows as [|r rs]; [reflexivity|].
  intros H. inversion H as [|? ? Hr Hrs]; subst. simpl.
  replace (forallb _ rs) with true; [reflexivity|].
  symmetry. apply forallb_forall. intros x Hx.
  rewrite Forall_forall in Hrs.
  apply Nat.eqb_eq, Hrs. apply list_elem_of_In. exact Hx.
Qed.

Lemma py_last_nonempty {A} (l : list A) (d : A) :
  l <> [] -> py_last l = Ok (List.last l d).
Proof.
  intros Hl. unfold py_last.
  destruct (exists_last Hl) as [l' [x ->]].
  rewrite last_snoc. rewrite List.last_last. reflexivity.
Qed.

Lemma block_list_le_longest (requests : list Seq) (req : Seq) :
  In req requests ->
  (length (block_table req) <= longest_block_list requests)%nat.
Proof.
  intros Hin. unfold longest_block_list.
  apply max_list_elem_of_le. apply list_elem_of_In.
  apply in_map_iff. exists req. split; [reflexivity | exact Hin].
Qed.

Lemma padded_row_length (requests : list Seq) :
  Forall (fun row => length row = longest_block_list requests)
         (padded_block_tables requests).
Proof.
  unfold padded_block_tables. apply Forall_forall. intros row Hrow.
  apply list_elem_of_In, in_map_iff in Hrow. destruct Hrow as [req [<- Hin]].
  rewrite length_app, length_replicate.
  pose proof (block_list_le_longest requests req Hin). lia.
Qed.

Lemma build_block_tables_padded (requests : list Seq) :
  requests <> [] ->
  build_block_tables requests = Ok (padded_block_tables requests).
Proof.
  intros Hne. unfold build_block_tables, py_max.
  destruct requests as [|r rs]; [congruence|].
  cbn [map]. 
  change (tensor2d (padded_block_tables (r :: rs)) = Ok (padded_block_tables (r :: rs))).
  eapply tensor2d_rectangular. apply padded_row_length.
Qed.

Lemma decode_vars_loop_ok (bs : nat) (mode : option bool) (plen : nat)
    (requests : list Seq) (v : DecodeVars) :
  Forall (fun req => block_table req <> []) requests ->
  decode_vars_loop bs mode plen requests v =
  Ok {| dv_input_ids := dv_input_ids v ++ map last_token requests;
        dv_positions :=
          dv_positions v ++ map (decode_position mode plen) requests;
        dv_slot_mapping :=
          dv_slot_mapping v ++
          map (fun req => last_block_id req * Z.of_nat bs
                          + Z.of_nat (last_block_num_tokens req) - 1) requests;
        dv_context_lens :=
          dv_context_lens v ++ map (fun req => Z.of_nat (seq_len req)) requests |}.
Proof.
  revert v. induction requests as [|req rest IH]; intros v Hall.
  - simpl. rewrite !app_nil_r. destruct v; reflexivity.
  - inversion Hall as [|? ? Hreq Hrest]; subst.
    cbn [decode_vars_loop]. unfold decode_step_vars.
    rewrite (py_last_nonempty _ 0 Hreq).
    rewrite IH by assumption. cbn.
    rewrite <- !app_assoc. reflexivity.
Qed.

(** ** Decode preparation *)

Section DecodePreparation.
Context `{C : Collab}.

(** What [_prepare_decode] returns and installs on sequences that each hold
    a block. *)
Lemma prepare_decode_run (e : Engine) (requests : list Seq) :
  requests <> [] ->
  Forall (fun req => block_table req <> []) requests ->
  _prepare_decode requests e =
  (Ok (map last_token requests,
       map (decode_position (tts_mode e) (tts_prompt_len e)) requests),
   set_context
     (decode_context
        (map (fun req => last_block_id req * Z.of_nat (block_size e)
                         + Z.of_nat (last_block_num_tokens req) - 1) requests)
        (map (fun req => Z.of_nat (seq_len req)) requests)
        (padded_block_tables requests)) e).
Proof.
  intros Hne Hall.
  unfold _prepare_decode, bind, gets, lift, set_forward_context, modify, ret.
  unfold decode_batch.
  destruct requests as [|r rs] eqn:E; [congruence|]. rewrite <- E in *.
  rewrite decode_vars_loop_ok by assumption.
  rewrite build_block_tables_padded by assumption.
  unfold check_block_tables, padded_block_tables.
  rewrite length_map, Nat.eqb_refl. reflexivity.
Qed.


End DecodePreparation.


(** ** Prefill preparation *)

Lemma py_range_block_cells (bs : nat) (b : Z) (n : nat) :
  py_range (b * Z.of_nat bs) (b * Z.of_nat bs + Z.of_nat n) = block_cells bs b n.
Proof.
  unfold py_range, block_cells, seqZ.
  replace (b * Z.of_nat bs + Z.of_nat n - b * Z.of_nat bs) with (Z.of_nat n) by lia.
  rewrite Nat2Z.id. apply map_ext. intros k. lia.
Qed.

(** The loop over block indices, on indices that all come before the
    final block. *)
Lemma slots_loop_full (bs : nat) (req : Seq) (m c : nat) (slots : list Z) :
  (c + m <= length (block_table req))%nat ->
  (Z.of_nat (c + m) <= Z.of_nat (num_blocks req) - 1) ->
  slots_loop bs req (seq c m) slots =
  Ok (slots ++ concat (map (fun b => block_cells bs b bs)
                           (take m (drop c (block_table req))))).
Proof.
  revert c slots. induction m as [|m IH]; intros c slots Hlen Hfin.
  - simpl. rewrite app_nil_r. reflexivity.
  - cbn [seq slots_loop].
    destruct (block_table req !! c) as [b|] eqn:Hb.
    2:{ apply lookup_ge_None in Hb. lia. }
    replace (Z.of_nat c =? Z.of_nat (num_blocks req) - 1) with false
      by (symmetry; apply Z.eqb_neq; lia).
    cbn [negb]. rewrite py_range_block_cells.
    rewrite IH by lia.
    rewrite (drop_S _ _ _ Hb). cbn [take map concat].
    rewrite <- app_assoc. 
    replace (drop (S c) (block_table req)) with (drop 1 (drop c (block_table req)))
      by (rewrite drop_drop; f_equal; lia).
    rewrite (drop_S _ _ _ Hb). reflexivity.
Qed.

Lemma slots_loop_app (bs : nat) (req : Seq) (l1 l2 : list nat) (slots : list Z) :
  slots_loop bs req (l1 ++ l2) slots =
  match slots_loop bs req l1 slots with
  | Raise e => Raise e
  | Ok s => slots_loop bs req l2 s
  end.
Proof.
  revert slots. induction l1 as [|i l1 IH]; intros slots; [reflexivity|].
  cbn [app slots_loop]. destruct (block_table req !! i); [apply IH | reflexivity].
Qed.

Lemma removelast_snoc {A} (l : list A) (x : A) : removelast (l ++ [x]) = l.
Proof. apply removelast_last. Qed.

Lemma exists_last_or_nil {A} (l : list A) :
  l = [] \/ exists l' x, l = l' ++ [x].
Proof.
  destruct l as [|a l]; [left; reflexivity | right].
  assert (a :: l <> []) as H by discriminate.
  destruct (exists_last H) as [l' [x ->]]. exists l', x. reflexivity.
Qed.

(** On a sequence whose block list covers its blocks, the slots a prefill
    appends are the cells of its new blocks. *)
Lemma prefill_slots_cells (bs : nat) (req : Seq) (slots : list Z) :
  blocks_cover req ->
  prefill_slots bs req slots = Ok (slots ++ new_block_cells bs req).
Proof.
  unfold blocks_cover, prefill_slots, new_block_cells, new_blocks.
  intros Hcov.
  destruct (block_table req) as [|b0 bt] eqn:Hbt.
  { rewrite take_nil, drop_nil. simpl. rewrite app_nil_r. reflexivity. }
  rewrite <- Hbt in *. clear b0 bt Hbt.
  set (c := num_cached_blocks req). set (n := num_blocks req) in *.
  destruct (Nat.le_gt_cases n c) as [Hle|Hgt].
  - replace (n - c)%nat with 0%nat by lia. simpl.
    rewrite drop_ge by (rewrite length_take; lia).
    simpl. rewrite app_nil_r. reflexivity.
  - replace (n - c)%nat with ((n - c - 1) + 1)%nat by lia.
    rewrite seq_app, slots_loop_app.
    rewrite slots_loop_full by lia.
    replace (c + (n - c - 1))%nat with (n - 1)%nat by lia.
    cbn [seq slots_loop].
    destruct (block_table req !! (n - 1)%nat) as [b|] eqn:Hb.
    2:{ apply lookup_ge_None in Hb. lia. }
    change (num_blocks req) with n.
    replace (Z.of_nat (n - 1) =? Z.of_nat n - 1) with true
      by (symmetry; apply Z.eqb_eq; lia).
    cbn [negb]. rewrite py_range_block_cells.
    assert (drop c (take n (block_table req))
            = take (n - c - 1) (drop c (block_table req)) ++ [b]) as Hsplit.
    { rewrite skipn_firstn_comm.
      remember (n - c - 1)%nat as k eqn:Hk.
      replace (n - c)%nat with (S k) by lia.
      apply take_S_r. rewrite lookup_drop.
      replace (c + k)%nat with (n - 1)%nat by lia. exact Hb. }
    rewrite Hsplit, removelast_snoc, last_snoc.
    rewrite <- app_assoc. reflexivity.
Qed.

Lemma cu_last_snoc (l : list Z) (x : Z) : cu_last (l ++ [x]) = x.
Proof. unfold cu_last. apply List.last_last. Qed.

(** The whole loop of the prefill, in closed form. *)
Lemma prefill_loop_ok (bs : nat) (requests : list Seq) (v : PrefillVars) :
  Forall blocks_cover requests ->
  prefill_loop bs requests v =
  Ok {| pv_input_ids :=
          pv_input_ids v ++
          concat (map (fun req => drop (num_cached_tokens req) (token_ids req))
                      requests);
        pv_positions :=
          pv_positions v ++
          concat (map (fun req =>
                         map Z.of_nat
                           (seq (num_cached_tokens req)
                                (seq_len req - num_cached_tokens req)))
                      requests);
        pv_cu_seqlens_q :=
          pv_cu_seqlens_q v ++
          running_sums (cu_last (pv_cu_seqlens_q v)) (map query_len requests);
        pv_cu_seqlens_k :=
          pv_cu_seqlens_k v ++
          running_sums (cu_last (pv_cu_seqlens_k v)) (map key_len requests);
        pv_max_seqlen_q :=
          fold_left (fun m req => Z.max (query_len req) m) requests
                    (pv_max_seqlen_q v);
        pv_max_seqlen_k :=
          fold_left (fun m req => Z.max (key_len req) m) requests
                    (pv_max_seqlen_k v);
        pv_slot_mapping :=
          pv_slot_mapping v ++ concat (map (new_block_cells bs) requests) |}.
Proof.
  revert v. induction requests as [|req rest IH]; intros v Hall.
  - simpl. rewrite !app_nil_r. destruct v; reflexivity.
  - inversion Hall as [|? ? Hreq Hrest]; subst.
    cbn [prefill_loop]. unfold prefill_step.
    rewrite prefill_slots_cells by assumption.
    rewrite IH by assumption.
    cbn [pv_input_ids pv_positions pv_cu_seqlens_q pv_cu_seqlens_k
         pv_max_seqlen_q pv_max_seqlen_k pv_slot_mapping].
    rewrite !cu_last_snoc.
    cbn [map concat running_sums fold_left].
    rewrite <- !app_assoc. reflexivity.
Qed.

Lemma running_sums_length (start : Z) (lens : list Z) :
  length (running_sums start lens) = length lens.
Proof.
  revert start. induction lens as [|x rest IH]; intros start; simpl;
    [reflexivity | rewrite IH; reflexivity].
Qed.

(** Two neighbours of a cumulative array differ by the length between
    them. *)
Lemma running_sums_step (start : Z) (lens : list Z) (i : nat) (x : Z) :
  lens !! i = Some x ->
  exists a,
    (start :: running_sums start lens) !! i = Some a /\
    (start :: running_sums start lens) !! S i = Some (a + x).
Proof.
  revert start i. induction lens as [|y rest IH]; intros start i Hi.
  - rewrite lookup_nil in Hi. discriminate.
  - destruct i as [|i].
    + simpl in Hi. inversion Hi; subst. exists start. split; reflexivity.
    + simpl in Hi. destruct (IH (start + y) i Hi) as [a [Ha Hb]].
      exists a. split; [exact Ha | exact Hb].
Qed.

Lemma running_sums_last (start : Z) (lens : list Z) :
  cu_last (start :: running_sums start lens) = start + sum_Z lens.
Proof.
  revert start. induction lens as [|x rest IH]; intros start.
  - simpl. unfold cu_last. simpl. lia.
  - change (cu_last (start :: (start + x) :: running_sums (start + x) rest)
            = start + (x + sum_Z rest)).
    unfold cu_last in *. 
    change (List.last ((start + x) :: running_sums (start + x) rest) 0
            = start + (x + sum_Z rest)).
    rewrite IH. lia.
Qed.

(** The total key length exceeds the total query length exactly when some
    sequence has cached tokens, that is a key longer than its query. *)
Lemma keys_exceed_queries (requests : list Seq) :
  sum_Z (map query_len requests) <= sum_Z (map key_len requests) /\
  (sum_Z (map query_len requests) < sum_Z (map key_len requests) <->
   exists req, In req requests /\ query_len req < key_len req).
Proof.
  induction requests as [|req rest [IHle IHiff]].
  - simpl. split; [lia|]. split; [lia | intros [? [[] _]]].
  - cbn [map sum_Z fold_right]. fold (sum_Z (map query_len rest)).
    fold (sum_Z (map key_len rest)).
    assert (query_len req <= key_len req) as Hreq
      by (unfold query_len, key_len; lia).
    split; [lia|]. split.
    + intros Hlt.
      destruct (Z.lt_ge_cases (query_len req) (key_len req)) as [H|H].
      * exists req. split; [left; reflexivity | exact H].
      * assert (sum_Z (map query_len rest) < sum_Z (map key_len rest)) as H'
          by lia.
        apply IHiff in H'. destruct H' as [r [Hin Hr]].
        exists r. split; [right; exact Hin | exact Hr].
    + intros [r [[->|Hin] Hr]]; [lia|].
      assert (sum_Z (map query_len rest) < sum_Z (map key_len rest))
        by (apply IHiff; exists r; split; assumption).
      lia.
Qed.

Section PrefillPreparation.
Context `{C : Collab}.

(** The context a prefill installs, in the words of the specification. *)
Lemma prepare_prefill_run (e : Engine) (requests : list Seq) :
  Forall blocks_cover requests ->
  exists ids positions max_q max_k,
    _prepare_prefill requests e =
    (Ok (ids, positions),
     set_context
       (mkCtx true
          (Some (0 :: running_sums 0 (map query_len requests)))
          (Some (0 :: running_sums 0 (map key_len requests)))
          max_q max_k
          (Some (concat (map (new_block_cells (block_size e)) requests)))
          None
          (if sum_Z (map query_len requests) <? sum_Z (map key_len requests)
           then Some (padded_block_tables requests) else None)) e).
Proof.
  intros Hall.
  unfold _prepare_prefill, bind, gets, lift, set_forward_context, modify, ret.
  unfold prefill_batch. rewrite prefill_loop_ok by assumption.
  unfold prefill_block_tables.
  cbn [pv_cu_seqlens_q pv_cu_seqlens_k prefill_init pv_slot_mapping
       pv_input_ids pv_positions pv_max_seqlen_q pv_max_seqlen_k].
  change (cu_last [0]) with 0.
  change ([0] ++ running_sums 0 (map query_len requests))
    with (0 :: running_sums 0 (map query_len requests)).
  change ([0] ++ running_sums 0 (map key_len requests))
    with (0 :: running_sums 0 (map key_len requests)).
  rewrite !running_sums_last, !Z.add_0_l.
  destruct (sum_Z (map query_len requests) <? sum_Z (map key_len requests))
    eqn:Hlt.
  - assert (requests <> []) as Hne.
    { intros ->. simpl in Hlt. discriminate. }
    rewrite build_block_tables_padded by assumption.
    cbn. eauto 10.
  - cbn. eauto 10.
Qed.

End PrefillPreparation.

Lemma running_sums_ge (start : Z) (lens : list Z) (j : nat) (b : Z) :
  Forall (fun x => 0 <= x) lens ->
  (start :: running_sums start lens) !! j = Some b -> start <= b.
Proof.
  revert start j. induction lens as [|x rest IH]; intros start j Hpos Hj.
  - destruct j as [|j]; simpl in Hj; [inversion Hj; lia|].
    rewrite lookup_nil in Hj. discriminate.
  - inversion Hpos as [|? ? Hx Hrest]; subst.
    destruct j as [|j]; simpl in Hj; [inversion Hj; lia|].
    pose proof (IH (start + x) j Hrest Hj). lia.
Qed.

(** A cumulative array over lengths that are not negative never
    decreases. *)
Lemma running_sums_monotone (start : Z) (lens : list Z) (i j : nat) (a b : Z) :
  Forall (fun x => 0 <= x) lens ->
  (i <= j)%nat ->
  (start :: running_sums start lens) !! i = Some a ->
  (start :: running_sums start lens) !! j = Some b ->
  a <= b.
Proof.
  revert start i j. induction lens as [|x rest IH]; intros start i j Hpos Hij Hi Hj.
  - destruct i as [|i]; simpl in Hi.
    + inversion Hi; subst. eapply running_sums_ge; eassumption.
    + rewrite lookup_nil in Hi. discriminate.
  - destruct i as [|i].
    + simpl in Hi. inversion Hi; subst.
      eapply running_sums_ge; eassumption.
    + destruct j as [|j]; [lia|].
      inversion Hpos as [|? ? Hx Hrest]; subst.
      simpl in Hi, Hj. eapply (IH (start + x) i j); try eassumption. lia.
Qed.

Section PrefillClaims.
Context `{C : Collab}.


End PrefillClaims.


(** Every cell a prefill writes for a sequence lies in one of its new
    blocks, when the final block is not over-full. *)
Lemma new_block_cells_in (bs : nat) (req : Seq) (x : Z) :
  (last_block_num_tokens req <= bs)%nat ->
  In x (new_block_cells bs req) ->
  exists b k,
    In b (new_blocks req) /\ (k < bs)%nat /\
    x = b * Z.of_nat bs + Z.of_nat k.
Proof.
  intros Hfill. unfold new_block_cells.
  destruct (exists_last_or_nil (new_blocks req)) as [->|[l0 [b0 ->]]].
  { simpl. intros []. }
  rewrite removelast_snoc, last_snoc.
  intros Hin. apply in_app_or in Hin. destruct Hin as [Hin|Hin].
  - apply in_concat in Hin. destruct Hin as [cells [Hcells Hx]].
    apply in_map_iff in Hcells. destruct Hcells as [b [<- Hb]].
    unfold block_cells in Hx. apply in_map_iff in Hx.
    destruct Hx as [k [<- Hk]]. apply in_seq in Hk.
    exists b, k. repeat split; [apply in_or_app; left; exact Hb | lia].
  - unfold block_cells in Hin. apply in_map_iff in Hin.
    destruct Hin as [k [<- Hk]]. apply in_seq in Hk.
    exists b0, k. repeat split; [apply in_or_app; right; left; reflexivity | lia].
Qed.

(** The cells of a cached block are not among the cells a prefill
    writes. *)
Lemma cached_cells_excluded (bs : nat) (req : Seq) (j k : nat) (b : Z) :
  NoDup (block_table req) ->
  (last_block_num_tokens req <= bs)%nat ->
  (j < num_cached_blocks req)%nat ->
  block_table req !! j = Some b ->
  (k < bs)%nat ->
  ~ In (b * Z.of_nat bs + Z.of_nat k) (new_block_cells bs req).
Proof.
  intros Hnodup Hfill Hj Hb Hk Hin.
  destruct (new_block_cells_in bs req _ Hfill Hin) as [b' [k' [Hb' [Hk' Heq]]]].
  assert (b = b') as <- by nia.
  unfold new_blocks in Hb'.
  apply list_elem_of_In, list_elem_of_lookup in Hb'. destruct Hb' as [i Hi].
  rewrite lookup_drop in Hi.
  apply lookup_take_Some in Hi. destruct Hi as [Hi _].
  pose proof (NoDup_lookup _ _ _ _ Hnodup Hb Hi). lia.
Qed.

Section PrefillSlotClaims.
Context `{C : Collab}.


End PrefillSlotClaims.


(** ** The plan cache *)

Lemma shape_one {A} (out : list (list A)) :
  map length out = [1%nat] -> exists h, out = [[h]].
Proof.
  destruct out as [|[|h [|h' row]] [|r rest]]; simpl; intros H;
    try discriminate.
  exists h. reflexivity.
Qed.

Section PlanCache.
Context `{C : Collab}.

(** With plans captured for size 1 only, a batch of two rows or more finds
    no plan and takes the direct forward call. *)
Lemma run_decode_falls_back (e : Engine) (ids positions : list Z)
    (context : ForwardContext) (mel : option (Z -> Emb))
    (pos : option (PosEmbedding Emb)) :
  graph_bs e = [1%nat] ->
  (2 <= length ids)%nat ->
  _run_decode_with_graph ids positions context mel pos e =
  direct_forward (match tts_mode e with Some true => true | _ => false end)
    mel pos ids positions e.
Proof.
  intros Hbs Hlen.
  unfold _run_decode_with_graph, bind, gets.
  destruct (negb (use_cuda_graph e) || bool_decide (dom (graphs e) = ∅));
    [reflexivity|].
  rewrite Hbs. cbn [List.find].
  destruct (Nat.leb (length ids) 1) eqn:Hle; [|reflexivity].
  apply Nat.leb_le in Hle. lia.
Qed.

(** One forward call of a plan of size 1 on the token branch. *)
Lemma plan_forward_one_ids (e : Engine) (gv : GraphVars) (t : Z)
    (ids' : list Z) (o : Hidden) (os : list Hidden) :
  model_keeps_shape C ->
  gv_input_ids gv = t :: ids' ->
  gv_outputs gv = o :: os ->
  let r := model_forward (mstate e) (InputIds [[t]] None) (current_context e) in
  exists h,
    snd r = [[h]] /\
    plan_forward None 1 gv e
    = (Ok (with_outputs (h :: os) gv), set_mstate (fst r) e).
Proof.
  intros Hshape Hids Houts r.
  destruct (shape_one (snd r)) as [h Hh].
  { subst r. rewrite Hshape. reflexivity. }
  exists h. split; [exact Hh|].
  unfold plan_forward. rewrite Hids.
  change (take 1 (t :: ids')) with [t].
  cbv [bind call_model get_forward_context gets lift modify ret unsqueeze1 map].
  subst r.
  destruct (model_forward (mstate e) (InputIds [[t]] None) (current_context e))
    as [ms' out].
  cbn [snd fst] in *. subst out.
  cbn [squeeze1 fst snd]. rewrite Houts.
  unfold assign_prefix, broadcast_to. cbn. reflexivity.
Qed.

(** One forward call of a plan of size 1 on the embedding branch. *)
Lemma plan_forward_one_embeds (e : Engine) (gv : GraphVars)
    (mods : TtsModules) (t p : Z) (ids' ps' : list Z) (x : Emb)
    (xs : list Emb) (o : Hidden) (os : list Hidden) :
  model_keeps_shape C ->
  gv_input_ids gv = t :: ids' ->
  gv_positions gv = p :: ps' ->
  gv_inputs_embeds gv = x :: xs ->
  gv_outputs gv = o :: os ->
  let emb := emb_add (fst mods t) (pe_emb (snd mods) (Z.max 0 p)) in
  let r := model_forward (mstate e) (InputsEmbeds [[emb]]) (current_context e) in
  exists h,
    snd r = [[h]] /\
    plan_forward (Some mods) 1 gv e
    = (Ok (with_outputs (h :: os) (with_inputs_embeds (emb :: xs) gv)),
       set_mstate (fst r) e).
Proof.
  intros Hshape Hids Hpos Hemb Houts emb r.
  destruct (shape_one (snd r)) as [h Hh].
  { subst r. rewrite Hshape. reflexivity. }
  exists h. split; [exact Hh|].
  unfold plan_forward. rewrite Hids, Hpos, Hemb.
  change (take 1 (t :: ids')) with [t].
  change (take 1 (p :: ps')) with [p].
  cbv [bind call_model get_forward_context gets lift modify ret unsqueeze1 map
       embed_tokens tensor_add length Nat.eqb zip_with assign_prefix
       broadcast_to Nat.min].
  change (take 1 ([emb_add (fst mods t) (pe_emb (snd mods) (Z.max 0 p))]
                  ++ drop 1 (x :: xs))) with [emb].
  change ([emb_add (fst mods t) (pe_emb (snd mods) (Z.max 0 p))]
          ++ drop 1 (x :: xs)) with (emb :: xs).
  subst r.
  destruct (model_forward (mstate e) (InputsEmbeds [[emb]]) (current_context e))
    as [ms' out].
  cbn [snd fst] in *. subst out.
  cbn [squeeze1 fst snd with_inputs_embeds gv_outputs]. rewrite Houts.
  cbn. reflexivity.
Qed.

End PlanCache.

Section Capture.
Context `{C : Collab}.

(** A capture on an engine with a positive block size and a model that
    keeps the shape of its input: it returns, records one plan of size 1,
    and leaves buffers of eight rows. *)
Lemma capture_run (e : Engine) (mel : option (Z -> Emb))
    (pos : option (PosEmbedding Emb)) :
  (0 < block_size e)%nat ->
  model_keeps_shape C ->
  exists gv ms ctx,
    _capture_cuda_graphs mel pos e =
    (Ok tt,
     set_graph_vars (Some gv)
       (set_context empty_context
          (set_graphs
             (<[1%nat := mkGraph
                  match mel, pos with
                  | Some m, Some p => Some (m, p)
                  | _, _ => None
                  end]> (graphs e))
             (set_mstate ms (set_context ctx (set_graph_bs [1%nat] e)))))) /\
    buffers_ready (max_num_blocks (block_size e)) gv.
Proof.
  intros Hbs Hshape.
  unfold _capture_cuda_graphs.
  unfold bind at 1. unfold gets at 1.
  destruct (Nat.eqb (block_size e) 0) eqn:Hz; [apply Nat.eqb_eq in Hz; lia|].
  unfold bind at 1. unfold modify at 1.
  unfold bind at 1. unfold gets at 1.
  change (graph_bs (set_graph_bs [1%nat] e)) with [1%nat].
  change (rev [1%nat]) with [1%nat].
  set (tts := match mel, pos with Some m, Some p => Some (m, p) | _, _ => None end).
  set (e1 := set_graph_bs [1%nat] e).
  change (block_size e) with (block_size e1).
  unfold bind at 1.
  cbn [capture_loop].
  unfold bind at 1. unfold lift at 1.
  assert (exists slots lens tables,
            synthetic_inputs 1 (initial_graph_vars (block_size e1)) =
            Ok (mkGraphVars (8192 :: replicate 7 8192) (1 :: replicate 7 1)
                  slots lens tables
                  (hidden_zero :: replicate 7 hidden_zero)
                  (emb_zero :: replicate 7 emb_zero)) /\
            length slots = 8%nat /\ length lens = 8%nat /\
            length tables = 8%nat /\
            Forall (fun row => length row = max_num_blocks (block_size e1))
                   tables)
    as [slots [lens [tables [Hsyn [Hls [Hll [Hlt Hrows]]]]]]].
  { eexists _, _, _. split; [reflexivity|].
    split; [reflexivity|]. split; [reflexivity|]. split; [reflexivity|].
    cbn. repeat constructor;
      rewrite ?length_insert, ?length_replicate; reflexivity. }
  rewrite Hsyn. clear Hsyn.
  set (gv1 := mkGraphVars _ _ slots lens tables _ _).
  unfold bind at 1. unfold set_forward_context at 1. unfold modify at 1.
  set (e2 := set_context (buffer_context 1 gv1) e1).
  unfold bind at 1.
  assert (forall recorded,
    exists gv ms,
      plan_forward recorded 1 gv1 e2 = (Ok gv, set_mstate ms e2) /\
      buffers_ready (max_num_blocks (block_size e1)) gv)
    as Hplan.
  { intros [mods|].
    - destruct (plan_forward_one_embeds e2 gv1 mods 8192 1 _ _ emb_zero _
                  hidden_zero _ Hshape eq_refl eq_refl eq_refl eq_refl)
        as [h [_ Hrun]].
      rewrite Hrun. eexists _, _. split; [reflexivity|].
      unfold buffers_ready.
      repeat split; try reflexivity; assumption.
    - destruct (plan_forward_one_ids e2 gv1 8192 _ hidden_zero _
                  Hshape eq_refl eq_refl) as [h [_ Hrun]].
      rewrite Hrun. eexists _, _. split; [reflexivity|].
      unfold buffers_ready.
      repeat split; try reflexivity; assumption. }
  destruct (Hplan tts) as [gv [ms [Hrun Hready]]].
  rewrite Hrun. clear Hrun.
  cbv [bind modify reset_forward_context ret].
  exists gv, ms, (buffer_context 1 gv1).
  split; [reflexivity | exact Hready].
Qed.

(** C9. A capture on a fresh engine (no plan yet, positive block size, a
    model that keeps the shape of its input) returns with [graph_bs = [1]]
    and exactly one plan, for batch size 1, while each of the fixed buffers
    has 8 rows; and with [graph_bs = [1]] every decode step of 2 to 8 rows
    finds no captured size at or above its batch size and is executed by
    the direct forward call: result and state are those of the direct
    call, no buffer is written and no plan replayed. *)
Theorem captured_plans_only_batch_one (e : Engine) (mel : option (Z -> Emb))
    (pos : option (PosEmbedding Emb)) :
  (0 < block_size e)%nat ->
  model_keeps_shape C ->
  graphs e = ∅ ->
  let r := _capture_cuda_graphs mel pos e in
  fst r = Ok tt /\
  graph_bs (snd r) = [1%nat] /\
  dom (graphs (snd r)) = {[1%nat]} /\
  (exists gv,
     graph_vars (snd r) = Some gv /\
     length (gv_input_ids gv) = 8%nat /\
     length (gv_positions gv) = 8%nat /\
     length (gv_slot_mapping gv) = 8%nat /\
     length (gv_context_lens gv) = 8%nat /\
     length (gv_block_tables gv) = 8%nat /\
     length (gv_outputs gv) = 8%nat /\
     length (gv_inputs_embeds gv) = 8%nat) /\
  (forall e' ids positions context mel' pos',
     graph_bs e' = graph_bs (snd r) ->
     (2 <= length ids <= 8)%nat ->
     _run_decode_with_graph ids positions context mel' pos' e' =
     direct_forward (match tts_mode e' with Some true => true | _ => false end)
       mel' pos' ids positions e').
Proof.
  intros Hbs Hshape Hempty r. subst r.
  destruct (capture_run e mel pos Hbs Hshape) as [gv [ms [ctx [Hrun Hready]]]].
  assert (length (gv_input_ids gv) = 8%nat /\
          length (gv_positions gv) = 8%nat /\
          length (gv_slot_mapping gv) = 8%nat /\
          length (gv_context_lens gv) = 8%nat /\
          length (gv_block_tables gv) = 8%nat /\
          length (gv_outputs gv) = 8%nat /\
          length (gv_inputs_embeds gv) = 8%nat) as Hlens.
  { destruct Hready as (H1 & H2 & H3 & H4 & H5 & H6 & H7 & _).
    repeat split; assumption. }
  rewrite Hrun. cbn [fst snd].
  split; [reflexivity|]. split; [reflexivity|]. split.
  { cbn [graphs set_graph_vars set_context set_graphs].
    rewrite Hempty, dom_insert_L, dom_empty_L. apply union_empty_r_L. }
  split.
  { exists gv. split; [reflexivity | exact Hlens]. }
  intros e' ids positions context mel' pos' Hgbs [Hlen _].
  apply run_decode_falls_back; [exact Hgbs | exact Hlen].
Qed.

End Capture.

Lemma imap_replicate_shape {A} (g : nat -> A) (l : list nat) :
  map length (imap (fun i n => replicate n (g i)) l) = l.
Proof.
  revert g. induction l as [|n l IH]; intros g; [reflexivity|].
  cbn [imap map]. rewrite length_replicate. f_equal.
  apply (IH (fun i => g (S i))).
Qed.

Lemma mock_keeps_shape (table : nat -> nat -> ForwardContext -> list Z) :
  model_keeps_shape (Mock.collab table).
Proof.
  intros ms input ctx.
  apply (imap_replicate_shape (fun i => table ms i ctx)).
Qed.

(** C9 on a fresh engine of the mock with plan capture switched on. *)
Lemma captured_plans_only_batch_one_witness :
  let table := Mock.fixed [] in
  let e : @Engine (Mock.collab table) := Mock.engine table Mock.capacity true in
  let e' := snd (_capture_cuda_graphs None None e) in
  graph_bs e' = [1%nat] /\
  dom (graphs e') = {[1%nat]} /\
  _run_decode_with_graph [3; 4] [0; 0] empty_context None None e'
  = direct_forward false None None [3; 4] [0; 0] e'.
Proof.
  intros table e e'.
  assert (0 < block_size e)%nat as H1 by (vm_compute; lia).
  assert (graphs e = ∅) as H2 by reflexivity.
  destruct (captured_plans_only_batch_one e None None H1
              (mock_keeps_shape table) H2) as (_ & Hbs & Hdom & _ & Hrun).
  split; [exact Hbs|]. split; [exact Hdom|].
  apply (Hrun e' [3; 4] [0; 0] empty_context None None);
    [reflexivity | simpl; lia].
Defined.

(** ** Replay and direct call *)

Section Replay.
Context `{C : Collab}.

Lemma assign_prefix_fits {A} (w : nat) (src buf : list A) :
  length src = w -> (w <= length buf)%nat ->
  assign_prefix w src buf = Ok (src ++ drop w buf).
Proof.
  intros Hs Hb. unfold assign_prefix, broadcast_to.
  rewrite Nat.min_l by exact Hb. rewrite Hs, Nat.eqb_refl. reflexivity.
Qed.

Lemma assign_prefix_overflow {A} (src buf : list A) :
  (length buf < length src)%nat -> (2 <= length src)%nat ->
  assign_prefix (length src) src buf = Raise ShapeError.
Proof.
  intros Hb Hs. unfold assign_prefix, broadcast_to.
  rewrite Nat.min_r by lia.
  destruct (Nat.eqb (length src) (length buf)) eqn:E;
    [apply Nat.eqb_eq in E; lia|].
  destruct src as [|x [|y src]]; simpl in Hs; try lia. reflexivity.
Qed.

Lemma bind_ok {A B} (m : M A) (f : A -> M B) (e e' : Engine) (a : A) :
  m e = (Ok a, e') -> bind m f e = f a e'.
Proof. intros H. unfold bind. rewrite H. reflexivity. Qed.

Lemma bind_raise {A B} (m : M A) (f : A -> M B) (e e' : Engine) (x : error) :
  m e = (Raise x, e') -> bind m f e = (Raise x, e').
Proof. intros H. unfold bind. rewrite H. reflexivity. Qed.

Lemma write_buffers_ok (gbs : nat) (f : GraphVars -> Result GraphVars)
    (gv gv' : GraphVars) (e : Engine) :
  f gv = Ok gv' ->
  write_buffers gbs f gv e =
  (Ok gv', set_context (buffer_context gbs gv') (set_graph_vars (Some gv') e)).
Proof.
  intros H. unfold write_buffers, bind, lift, modify, set_forward_context, ret.
  rewrite H. reflexivity.
Qed.

Lemma write_buffers_raise (gbs : nat) (f : GraphVars -> Result GraphVars)
    (gv : GraphVars) (x : error) (e : Engine) :
  f gv = Raise x -> write_buffers gbs f gv e = (Raise x, e).
Proof.
  intros H. unfold write_buffers, bind, lift. rewrite H. reflexivity.
Qed.

Lemma load_buffers_one (e : Engine) (t p s l i0 p0 s0 l0 : Z)
    (row row0 ids' ps' ss ls : list Z) (rows : list (list Z))
    (outs : list Hidden) (embs : list Emb) :
  (length row <= length row0)%nat ->
  let gv := mkGraphVars (i0 :: ids') (p0 :: ps') (s0 :: ss) (l0 :: ls)
              (row0 :: rows) outs embs in
  let gv' := mkGraphVars (t :: ids') (p :: ps')
               (s :: replicate (length ss) (-1))
               (l :: replicate (length ls) 0)
               ((row ++ drop (length row) row0) :: rows) outs embs in
  load_buffers 1 1 [t] [p] (decode_context [s] [l] [row]) gv e =
  (Ok gv', set_context (buffer_context 1 gv') (set_graph_vars (Some gv') e)).
Proof.
  intros Hw gv gv'. subst gv gv'.
  unfold load_buffers.
  erewrite bind_ok by (apply write_buffers_ok; reflexivity).
  erewrite bind_ok by (apply write_buffers_ok; reflexivity).
  erewrite bind_ok by (apply write_buffers_ok; reflexivity).
  erewrite bind_ok by (apply write_buffers_ok; reflexivity).
  erewrite bind_ok by (apply write_buffers_ok; reflexivity).
  erewrite bind_ok by (apply write_buffers_ok; reflexivity).
  erewrite write_buffers_ok.
  2:{ cbn [block_tables decode_context gv_block_tables with_context_lens
           with_slot_mapping with_positions with_input_ids].
      unfold assign_block. cbn [size1 broadcast_to length Nat.min Nat.eqb take
        assign_rows].
      rewrite (assign_prefix_fits (length row) row row0 eq_refl Hw).
      cbn. reflexivity. }
  reflexivity.
Qed.

Lemma load_buffers_overflow (e : Engine) (t p s l i0 p0 s0 l0 : Z)
    (row row0 ids' ps' ss ls : list Z) (rows : list (list Z))
    (outs : list Hidden) (embs : list Emb) :
  (length row0 < length row)%nat -> (2 <= length row)%nat ->
  let gv := mkGraphVars (i0 :: ids') (p0 :: ps') (s0 :: ss) (l0 :: ls)
              (row0 :: rows) outs embs in
  fst (load_buffers 1 1 [t] [p] (decode_context [s] [l] [row]) gv e)
  = Raise ShapeError.
Proof.
  intros Hw H2 gv. subst gv.
  unfold load_buffers.
  erewrite bind_ok by (apply write_buffers_ok; reflexivity).
  erewrite bind_ok by (apply write_buffers_ok; reflexivity).
  erewrite bind_ok by (apply write_buffers_ok; reflexivity).
  erewrite bind_ok by (apply write_buffers_ok; reflexivity).
  erewrite bind_ok by (apply write_buffers_ok; reflexivity).
  erewrite bind_ok by (apply write_buffers_ok; reflexivity).
  erewrite write_buffers_raise; [reflexivity|].
  cbn [block_tables decode_context gv_block_tables with_context_lens
       with_slot_mapping with_positions with_input_ids].
  unfold assign_block. cbn [size1 broadcast_to length Nat.min Nat.eqb take
    assign_rows].
  rewrite (assign_prefix_overflow row row0 Hw H2). reflexivity.
Qed.

Lemma direct_forward_one_ids (e : Engine) (t p : Z) mel pos :
  model_keeps_shape C ->
  let r := model_forward (mstate e) (InputIds [[t]] None) (current_context e) in
  exists h,
    snd r = [[h]] /\
    direct_forward false mel pos [t] [p] e = (Ok [h], set_mstate (fst r) e).
Proof.
  intros Hshape r.
  destruct (shape_one (snd r)) as [h Hh].
  { subst r. rewrite Hshape. reflexivity. }
  exists h. split; [exact Hh|].
  unfold direct_forward.
  cbv [bind call_model get_forward_context gets lift modify ret unsqueeze1 map].
  subst r.
  destruct (model_forward (mstate e) (InputIds [[t]] None) (current_context e))
    as [ms' out].
  cbn [snd fst] in *. subst out. reflexivity.
Qed.

Lemma direct_forward_one_embeds (e : Engine) (t p : Z) (m : Z -> Emb)
    (po : PosEmbedding Emb) :
  model_keeps_shape C ->
  let emb := emb_add (m t) (pe_emb po (Z.max 0 p)) in
  let r := model_forward (mstate e) (InputsEmbeds [[emb]]) (current_context e) in
  exists h,
    snd r = [[h]] /\
    direct_forward true (Some m) (Some po) [t] [p] e
    = (Ok [h], set_mstate (fst r) e).
Proof.
  intros Hshape emb r.
  destruct (shape_one (snd r)) as [h Hh].
  { subst r. rewrite Hshape. reflexivity. }
  exists h. split; [exact Hh|].
  unfold direct_forward.
  cbv [bind call_model get_forward_context gets lift modify ret unsqueeze1 map
       embed_tokens tensor_add length Nat.eqb zip_with fst snd].
  fold emb. subst r.
  destruct (model_forward (mstate e) (InputsEmbeds [[emb]]) (current_context e))
    as [ms' out].
  cbn [snd fst] in *. subst out. reflexivity.
Qed.

(** The replay of a one-row step, computed. *)
Lemma replay_one_row (e : Engine) (g : Graph) (gv : GraphVars)
    (t p s l : Z) (row : list Z) (mel : option (Z -> Emb))
    (pos : option (PosEmbedding Emb)) :
  model_keeps_shape C ->
  use_cuda_graph e = true ->
  graph_bs e = [1%nat] ->
  graphs e !! 1%nat = Some g ->
  graph_vars e = Some gv ->
  buffers_ready (max_num_blocks (block_size e)) gv ->
  (length row <= max_num_blocks (block_size e))%nat ->
  plan_branch_agrees e g mel pos ->
  let stale := drop (length row) (hd [] (gv_block_tables gv)) in
  let e_buf := set_context (decode_context [s] [l] [row ++ stale]) e in
  exists gv',
    _run_decode_with_graph [t] [p] (decode_context [s] [l] [row]) mel pos e =
    (fst (direct_forward (uses_embeddings e) mel pos [t] [p] e_buf),
     set_graph_vars (Some gv')
       (snd (direct_forward (uses_embeddings e) mel pos [t] [p] e_buf))).
Proof.
  intros Hshape Hcuda Hbs Hg Hgv Hready Hw Hbranch stale e_buf.
  destruct gv as [ids poss slots lens tables outs embs].
  destruct Hready as (H1 & H2 & H3 & H4 & H5 & H6 & H7 & Hrows).
  cbn [gv_input_ids gv_positions gv_slot_mapping gv_context_lens
       gv_block_tables gv_outputs gv_inputs_embeds] in *.
  unfold max_bs in *.
  destruct ids as [|i0 ids']; [discriminate|].
  destruct poss as [|p0 ps']; [discriminate|].
  destruct slots as [|s0 ss]; [discriminate|].
  destruct lens as [|l0 ls]; [discriminate|].
  destruct tables as [|row0 rows]; [discriminate|].
  destruct outs as [|o os]; [discriminate|].
  destruct embs as [|x xs]; [discriminate|].
  inversion Hrows as [|? ? Hrow0 _]; subst.
  cbn [hd] in stale.
  unfold _run_decode_with_graph.
  unfold bind at 1. unfold gets at 1.
  unfold bind at 1. unfold gets at 1.
  unfold bind at 1. unfold gets at 1.
  rewrite Hcuda. cbn [negb orb].
  assert (bool_decide (dom (graphs e) = ∅) = false) as Hdom.
  { apply bool_decide_eq_false. intros Hd.
    assert (1%nat ∈ dom (graphs e)) as Hin by (apply elem_of_dom; eauto).
    rewrite Hd in Hin. set_solver. }
  rewrite Hdom.
  unfold bind at 1. unfold gets at 1.
  rewrite Hbs. cbn [List.find length Nat.leb].
  rewrite Hg.
  unfold bind at 1. unfold gets at 1. rewrite Hgv.
  unfold bind at 1. unfold set_forward_context at 1. unfold modify at 1.
  erewrite bind_ok.
  2:{ apply load_buffers_one. rewrite Hrow0. exact Hw. }
  match goal with
  | |- context [bind (plan_forward _ 1 ?a) _ ?b] => set (gv1 := a); set (e3 := b)
  end.
  unfold plan_branch_agrees in Hbranch. unfold uses_embeddings.
  assert (forall h : Hidden, take 1 (h :: os) = [h]) as Htake by reflexivity.
  destruct (tts_mode e) as [[|]|] eqn:Hmode.
  - destruct Hbranch as [m [po [-> [-> Hrec]]]]. rewrite Hrec.
    destruct (plan_forward_one_embeds e3 gv1 (m, po) t p ids' ps' x xs o os
                Hshape eq_refl eq_refl eq_refl eq_refl) as [h [Hh Hrun]].
    destruct (direct_forward_one_embeds e_buf t p m po Hshape)
      as [h' [Hh' Hrun']].
    assert ([[h]] = [[h']]) as Heq by (rewrite <- Hh, <- Hh'; reflexivity).
    inversion Heq; subst h'.
    erewrite bind_ok by exact Hrun. rewrite Hrun'.
    cbv [bind modify ret]. cbn [fst snd with_outputs gv_outputs].
    rewrite Htake. eexists. reflexivity.
  - rewrite Hbranch.
    destruct (plan_forward_one_ids e3 gv1 t ids' o os Hshape eq_refl eq_refl)
      as [h [Hh Hrun]].
    destruct (direct_forward_one_ids e_buf t p mel pos Hshape)
      as [h' [Hh' Hrun']].
    assert ([[h]] = [[h']]) as Heq by (rewrite <- Hh, <- Hh'; reflexivity).
    inversion Heq; subst h'.
    erewrite bind_ok by exact Hrun. rewrite Hrun'.
    cbv [bind modify ret]. cbn [fst snd with_outputs gv_outputs].
    rewrite Htake. eexists. reflexivity.
  - rewrite Hbranch.
    destruct (plan_forward_one_ids e3 gv1 t ids' o os Hshape eq_refl eq_refl)
      as [h [Hh Hrun]].
    destruct (direct_forward_one_ids e_buf t p mel pos Hshape)
      as [h' [Hh' Hrun']].
    assert ([[h]] = [[h']]) as Heq by (rewrite <- Hh, <- Hh'; reflexivity).
    inversion Heq; subst h'.
    erewrite bind_ok by exact Hrun. rewrite Hrun'.
    cbv [bind modify ret]. cbn [fst snd with_outputs gv_outputs].
    rewrite Htake. eexists. reflexivity.
Qed.

Lemma select_tokens_rng (temperature : Q) (requests : list Seq)
    (logits : list (list Logit)) (e1 e2 : Engine) :
  rng e1 = rng e2 ->
  fst (select_tokens temperature requests logits e1)
  = fst (select_tokens temperature requests logits e2).
Proof.
  intros Hrng. unfold select_tokens.
  destruct (temperature_positive temperature); [|reflexivity].
  cbv [bind gets modify ret]. rewrite Hrng.
  destruct (sampler (rng e2) logits (_prepare_sample requests temperature)).
  reflexivity.
Qed.

Lemma direct_forward_rng (use_tts : bool) (mel : option (Z -> Emb))
    (pos : option (PosEmbedding Emb)) (ids positions : list Z) (e : Engine) :
  rng (snd (direct_forward use_tts mel pos ids positions e)) = rng e.
Proof.
  cbv [direct_forward bind call_model get_forward_context gets lift
       modify ret raise].
  destruct use_tts.
  - destruct mel as [m|]; [|reflexivity]. destruct pos as [po|]; [|reflexivity].
    destruct (embed_tokens (m, po) ids positions); [|reflexivity].
    match goal with
    | |- context [model_forward ?a ?b ?c] =>
        destruct (model_forward a b c) as [ms out]
    end.
    destruct (squeeze1 out); reflexivity.
  - match goal with
    | |- context [model_forward ?a ?b ?c] =>
        destruct (model_forward a b c) as [ms out]
    end.
    destruct (squeeze1 out); reflexivity.
Qed.

(** A context and the same context with stale columns after a block-table
    row that covers the context use the same blocks. *)
Lemma same_used_blocks_stale (bs : nat) (s l : Z) (row stale : list Z) :
  (Z.to_nat ((l + Z.of_nat bs - 1) / Z.of_nat bs) <= length row)%nat ->
  same_used_blocks bs (decode_context [s] [l] [row])
                      (decode_context [s] [l] [row ++ stale]).
Proof.
  intros Hcov. unfold same_used_blocks.
  split; [reflexivity|]. split; [reflexivity|]. split; [reflexivity|].
  exists [l], [row], [row ++ stale].
  split; [reflexivity|]. split; [reflexivity|]. split; [reflexivity|].
  split; [reflexivity|].
  intros i len r1 r2 Hl H1 H2.
  destruct i as [|i]; [|rewrite lookup_cons, lookup_nil in Hl; discriminate].
  simpl in Hl, H1, H2. inversion Hl; inversion H1; inversion H2; subst.
  unfold used_blocks. rewrite take_app_le by exact Hcov. reflexivity.
Qed.

End Replay.

Section ReplayClaim.
Context `{C : Collab}.

(** The direct call of a one-row step gives the same result, and leaves
    the same device state, under two contexts the model cannot tell
    apart. *)
Lemma direct_forward_same_context (e : Engine) (c1 c2 : ForwardContext)
    (g : Graph) (t p : Z) (mel : option (Z -> Emb))
    (pos : option (PosEmbedding Emb)) :
  model_keeps_shape C ->
  plan_branch_agrees e g mel pos ->
  (forall input, model_forward (mstate e) input c1
                 = model_forward (mstate e) input c2) ->
  let d1 := direct_forward (uses_embeddings e) mel pos [t] [p] (set_context c1 e) in
  let d2 := direct_forward (uses_embeddings e) mel pos [t] [p] (set_context c2 e) in
  fst d1 = fst d2 /\ is_ok (fst d1) = true /\
  mstate (snd d1) = mstate (snd d2) /\ rng (snd d1) = rng e.
Proof.
  intros Hshape Hbranch Hsame d1 d2.
  assert (rng (snd d1) = rng e) as Hrng
    by (subst d1;
        exact (direct_forward_rng _ mel pos [t] [p] (set_context c1 e))).
  unfold plan_branch_agrees in Hbranch. unfold uses_embeddings in *.
  destruct (tts_mode e) as [[|]|].
  - destruct Hbranch as [m [po [-> [-> _]]]].
    destruct (direct_forward_one_embeds (set_context c1 e) t p m po Hshape)
      as [h1 [Hh1 Hrun1]].
    destruct (direct_forward_one_embeds (set_context c2 e) t p m po Hshape)
      as [h2 [Hh2 Hrun2]].
    cbn [mstate current_context set_context] in Hh1, Hh2, Hrun1, Hrun2.
    rewrite Hsame in Hh1, Hrun1. rewrite Hh1 in Hh2. inversion Hh2; subst h2.
    subst d1 d2. rewrite Hrun1, Hrun2.
    repeat split; try reflexivity;
      try (rewrite Hrun1 in Hrng; exact Hrng).
  - destruct (direct_forward_one_ids (set_context c1 e) t p mel pos Hshape)
      as [h1 [Hh1 Hrun1]].
    destruct (direct_forward_one_ids (set_context c2 e) t p mel pos Hshape)
      as [h2 [Hh2 Hrun2]].
    cbn [mstate current_context set_context] in Hh1, Hh2, Hrun1, Hrun2.
    rewrite Hsame in Hh1, Hrun1. rewrite Hh1 in Hh2. inversion Hh2; subst h2.
    subst d1 d2. rewrite Hrun1, Hrun2.
    repeat split; try reflexivity;
      try (rewrite Hrun1 in Hrng; exact Hrng).
  - destruct (direct_forward_one_ids (set_context c1 e) t p mel pos Hshape)
      as [h1 [Hh1 Hrun1]].
    destruct (direct_forward_one_ids (set_context c2 e) t p mel pos Hshape)
      as [h2 [Hh2 Hrun2]].
    cbn [mstate current_context set_context] in Hh1, Hh2, Hrun1, Hrun2.
    rewrite Hsame in Hh1, Hrun1. rewrite Hh1 in Hh2. inversion Hh2; subst h2.
    subst d1 d2. rewrite Hrun1, Hrun2.
    repeat split; try reflexivity;
      try (rewrite Hrun1 in Hrng; exact Hrng).
Qed.

Lemma set_context_current (e : Engine) : set_context (current_context e) e = e.
Proof. destruct e; reflexivity. Qed.


End ReplayClaim.

Lemma mock_paged_reads_used_blocks (bs : nat) :
  model_reads_used_blocks (Mock.collab (Mock.paged bs)) bs.
Proof.
  intros ms input c1 c2 (_ & _ & Hl & lens & t1 & t2 & Hl1 & Ht1 & Ht2 & Hlen & Hrows).
  cbn [model_forward Mock.collab]. unfold Mock.forward. f_equal.
  apply imap_ext. intros i n _. f_equal.
  unfold Mock.paged. rewrite <- Hl, Hl1, Ht1, Ht2.
  destruct (lens !! i) as [len|] eqn:El; [|reflexivity].
  destruct (t1 !! i) as [r1|] eqn:E1, (t2 !! i) as [r2|] eqn:E2.
  - rewrite (Hrows i len r1 r2 El E1 E2). reflexivity.
  - apply lookup_lt_Some in E1. apply lookup_ge_None in E2. lia.
  - apply lookup_ge_None in E1. apply lookup_lt_Some in E2. lia.
  - reflexivity.
Qed.



(** The same divergence through [generate]: blocks of 4 cells give a
    block-table buffer of 512 columns; a prompt of 2049 tokens needs 513
    blocks at the first decode step. *)
Example generate_replay_overflow :
  let table := fun (_ _ : nat) (_ : ForwardContext) => [0; 1] in
  let a := Mock.args table [replicate 2049 5] 2049 2 0 None in
  fst (generate a (Mock.engine table Mock.capacity true)) = Raise ShapeError /\
  is_ok (fst (generate a (Mock.engine table Mock.capacity false))) = true.
Proof. split; vm_compute; reflexivity. Qed.

(** ** The loops over the sampled tokens *)

Lemma tensor2d_ragged {A} (rows : list (list A)) (i j : nat) (r1 r2 : list A) :
  rows !! i = Some r1 -> rows !! j = Some r2 -> length r1 <> length r2 ->
  tensor2d rows = Raise ValueError.
Proof.
  intros Hi Hj Hne. destruct rows as [|r rs]; [rewrite lookup_nil in Hi; discriminate|].
  simpl. destruct (forallb _ rs) eqn:Hall; [|reflexivity].
  exfalso. rewrite forallb_forall in Hall.
  assert (forall k x, (r :: rs) !! k = Some x -> length x = length r) as Hlen.
  { intros [|k] x Hx; simpl in Hx.
    - inversion Hx. reflexivity.
    - apply Nat.eqb_eq, Hall, list_elem_of_In.
      eapply list_elem_of_lookup_2. exact Hx. }
  rewrite (Hlen i r1 Hi), (Hlen j r2 Hj) in Hne. congruence.
Qed.

(** What the loop over the first tokens leaves: row [i + k] of the
    generated tokens gets token [k] unless it is a stop token, the other
    rows stay, and the flag records whether some token was a stop token. *)
Lemma first_token_loop_spec (stop : option (list Z)) (tokens : list Z) :
  forall (i : nat) (g : list (list Z)) (hit : bool),
    (i + length tokens <= length g)%nat ->
    exists g',
      first_token_loop stop i tokens g hit
      = Ok (g', hit || existsb (stop_hit stop) tokens) /\
      length g' = length g /\
      (forall k t, tokens !! k = Some t ->
         g' !! (i + k)%nat =
         (fun row => if stop_hit stop t then row else row ++ [t])
           <$> g !! (i + k)%nat) /\
      (forall k, (k < i \/ i + length tokens <= k)%nat -> g' !! k = g !! k).
Proof.
  induction tokens as [|t rest IH]; intros i g hit Hlen.
  - exists g. cbn. rewrite orb_false_r.
    repeat split; try reflexivity.
    intros k t Hk. rewrite lookup_nil in Hk. discriminate.
  - cbn [first_token_loop existsb length] in *.
    destruct (stop_hit stop t) eqn:Hstop.
    + destruct (IH (S i) g true) as [g' [Hrun [Hl [Hrows Hframe]]]]; [lia|].
      exists g'. rewrite Hrun. rewrite orb_true_r. cbn [orb].
      split; [reflexivity|]. split; [exact Hl|]. split.
      * intros [|k] t' Hk.
        -- simpl in Hk. inversion Hk; subst t'. rewrite Hstop.
           rewrite Nat.add_0_r. rewrite Hframe by lia.
           destruct (g !! i); reflexivity.
        -- simpl in Hk. replace (i + S k)%nat with (S i + k)%nat by lia.
           apply Hrows. exact Hk.
      * intros k Hk. apply Hframe. lia.
    + unfold append_generated.
      destruct (g !! i) as [gi|] eqn:Hgi.
      2:{ apply lookup_ge_None in Hgi. lia. }
      destruct (IH (S i) (<[i := gi ++ [t]]> g) hit)
        as [g' [Hrun [Hl [Hrows Hframe]]]].
      { rewrite length_insert. lia. }
      exists g'. rewrite Hrun. cbn [orb].
      split; [reflexivity|]. split; [rewrite Hl; apply length_insert|]. split.
      * intros [|k] t' Hk.
        -- simpl in Hk. inversion Hk; subst t'. rewrite Hstop.
           rewrite Nat.add_0_r. rewrite Hframe by lia.
           rewrite list_lookup_insert_eq by (apply lookup_lt_Some in Hgi; lia).
           rewrite Hgi. reflexivity.
        -- simpl in Hk. replace (i + S k)%nat with (S i + k)%nat by lia.
           rewrite (Hrows k t' Hk).
           rewrite list_lookup_insert_ne by lia. reflexivity.
      * intros k Hk. rewrite Hframe by lia.
        apply list_lookup_insert_ne. lia.
Qed.

Lemma early_rows_spec (rows : list (list Z)) :
  forall (i : nat) (g : list (list Z)),
    (i + length rows <= length g)%nat ->
    exists out,
      early_rows rows i g = Ok out /\
      forall k row gk, rows !! k = Some row -> g !! (i + k)%nat = Some gk ->
        out !! k = Some (row ++ gk).
Proof.
  induction rows as [|row rest IH]; intros i g Hlen.
  - exists []. split; [reflexivity|]. intros k r gk Hk.
    rewrite lookup_nil in Hk. discriminate.
  - cbn [early_rows length] in *.
    destruct (g !! i) as [gi|] eqn:Hgi.
    2:{ apply lookup_ge_None in Hgi. lia. }
    destruct (IH (S i) g) as [out [Hrun Hout]]; [lia|].
    rewrite Hrun. exists ((row ++ gi) :: out). split; [reflexivity|].
    intros [|k] r gk Hk Hg.
    + simpl in Hk. inversion Hk; subst r. rewrite Nat.add_0_r in Hg.
      rewrite Hgi in Hg. inversion Hg. reflexivity.
    + simpl in Hk. simpl. apply Hout; [exact Hk|].
      replace (S i + k)%nat with (i + S k)%nat by lia. exact Hg.
Qed.

Section EarlyReturn.
Context `{C : Collab}.

Lemma release_sequences_returns (e : Engine) :
  exists sequences e',
    release_sequences e = (Ok sequences, e') /\
    sequences = snd (remove_loop (kv_manager e) (current_sequences e)).
Proof.
  unfold release_sequences, bind, gets, modify, ret.
  destruct (remove_loop (kv_manager e) (current_sequences e)) as [k' s'].
  eexists _, _. split; reflexivity.
Qed.

(** C10. When the first tokens sampled after the prefill hold a stop token
    for some row and a token that is no stop token for another, the rows
    of generated tokens are empty for the stopped rows and hold one token
    for the others, and [generate] does not return a matrix: building the
    output tensor of the early return from rows of unequal length raises
    (ValueError). *)
Theorem first_token_mixed_stop_raises (a : GenArgs) (e e1 e2 : Engine)
    (logits : list (list Logit)) (tokens : list Z) (i j : nat) (ti tj : Z) :
  tensor2_wf (input_ids a) ->
  prefill_logits a e = (Ok logits, e1) ->
  select_tokens (temperature a) (current_sequences e1) logits e1
  = (Ok tokens, e2) ->
  length tokens = batch_size_of a ->
  tokens !! i = Some ti -> stop_hit (stop_tokens a) ti = true ->
  tokens !! j = Some tj -> stop_hit (stop_tokens a) tj = false ->
  exists generated,
    first_token_loop (stop_tokens a) 0 tokens
      (replicate (batch_size_of a) []) false = Ok (generated, true) /\
    (forall k t, tokens !! k = Some t ->
       generated !! k = Some (if stop_hit (stop_tokens a) t then [] else [t])) /\
    generated !! i = Some [] /\
    generated !! j = Some [tj] /\
    fst (generate a e) = Raise ValueError.
Proof.
  intros Hwf Hpre Hsel Hlen Hi Hsi Hj Hsj.
  destruct (first_token_loop_spec (stop_tokens a) tokens 0
              (replicate (batch_size_of a) []) false)
    as [g [Hloop [Hgl [Hrows _]]]].
  { rewrite length_replicate. lia. }
  assert (existsb (stop_hit (stop_tokens a)) tokens = true) as Hex.
  { apply existsb_exists. exists ti. split; [|exact Hsi].
    apply list_elem_of_In. eapply list_elem_of_lookup_2. exact Hi. }
  rewrite Hex in Hloop. cbn [orb] in Hloop.
  assert (forall k t, tokens !! k = Some t ->
            g !! k = Some (if stop_hit (stop_tokens a) t then [] else [t]))
    as Hg.
  { intros k t Hk. specialize (Hrows k t Hk). cbn [Nat.add] in Hrows.
    rewrite Hrows. rewrite lookup_replicate_2.
    - destruct (stop_hit (stop_tokens a) t); reflexivity.
    - apply lookup_lt_Some in Hk. lia. }
  exists g. split; [exact Hloop|]. split; [exact Hg|].
  pose proof (Hg i ti Hi) as Hgi. rewrite Hsi in Hgi.
  pose proof (Hg j tj Hj) as Hgj. rewrite Hsj in Hgj.
  split; [exact Hgi|]. split; [exact Hgj|].
  unfold generate.
  erewrite bind_ok by exact Hpre.
  unfold bind at 1. unfold gets at 1.
  erewrite bind_ok by exact Hsel.
  unfold bind at 1. unfold lift at 1. rewrite Hloop. cbn [snd fst].
  unfold generate_early.
  destruct (release_sequences_returns e2) as [seqs [e3 [Hrel _]]].
  erewrite bind_ok by exact Hrel.
  destruct (early_rows_spec (t_rows (input_ids a)) 0 g) as [out [Hout Hlook]].
  { rewrite Hgl, length_replicate. unfold batch_size_of. lia. }
  unfold bind at 1. unfold lift at 1. rewrite Hout.
  unfold lift.
  assert (is_Some (t_rows (input_ids a) !! i)) as [ri Hri].
  { apply lookup_lt_is_Some. apply lookup_lt_Some in Hi.
    unfold batch_size_of in Hlen. lia. }
  assert (is_Some (t_rows (input_ids a) !! j)) as [rj Hrj].
  { apply lookup_lt_is_Some. apply lookup_lt_Some in Hj.
    unfold batch_size_of in Hlen. lia. }
  rewrite (tensor2d_ragged out i j (ri ++ []) (rj ++ [tj])).
  - reflexivity.
  - apply Hlook; assumption.
  - apply Hlook; assumption.
  - unfold tensor2_wf in Hwf. rewrite Forall_forall in Hwf.
    rewrite !length_app.
    rewrite (Hwf ri) by (eapply list_elem_of_lookup_2; exact Hri).
    rewrite (Hwf rj) by (eapply list_elem_of_lookup_2; exact Hrj).
    simpl. lia.
Qed.

End EarlyReturn.

(** C10 on the mock: two rows, stop token 3; the first logits give token 3
    to row 0 and token 1 to row 1. *)
Lemma first_token_mixed_stop_raises_witness :
  let table := Mock.fixed [[[1; 2; 7; 9]; [1; 9; 0; 0]]] in
  let a := Mock.args table [[5; 9; 2]; [7; 7; 7]] 3 10 0 (Some [3]) in
  let e := Mock.engine table Mock.capacity false in
  fst (generate a e) = Raise ValueError /\
  exists generated,
    first_token_loop (stop_tokens a) 0 [3; 1] (replicate 2 []) false
    = Ok (generated, true) /\
    generated !! 0%nat = Some [] /\ generated !! 1%nat = Some [1].
Proof.
  intros table a e.
  destruct (prefill_logits a e) as [r1 e1] eqn:Hpre.
  assert (exists logits, r1 = Ok logits) as [logits ->]
    by (vm_compute in Hpre; inversion Hpre; eexists; reflexivity).
  destruct (select_tokens (temperature a) (current_sequences e1) logits e1)
    as [r2 e2] eqn:Hsel.
  assert (r2 = Ok [3; 1]) as ->.
  { vm_compute in Hpre. inversion Hpre; subst.
    vm_compute in Hsel. inversion Hsel. reflexivity. }
  destruct (first_token_mixed_stop_raises a e e1 e2 logits [3; 1] 0 1 3 1)
    as [g (Hloop & _ & H0 & H1 & Hgen)];
    try reflexivity; try assumption.
  - repeat constructor.
  - split; [exact Hgen|]. exists g. repeat split; assumption.
Defined.

(** ** Calls in sequence *)

Section Calls.
Context `{C : Collab}.

Lemma bind_inv {A B} (m : M A) (f : A -> M B) (e e' : Engine) (b : B) :
  bind m f e = (Ok b, e') ->
  exists a e1, m e = (Ok a, e1) /\ f a e1 = (Ok b, e').
Proof.
  unfold bind. destruct (m e) as [[a|x] e1]; intros H.
  - exists a, e1. split; [reflexivity | exact H].
  - discriminate.
Qed.

Lemma lift_inv {A} (r : Result A) (e e' : Engine) (a : A) :
  lift r e = (Ok a, e') -> r = Ok a /\ e' = e.
Proof. unfold lift. intros H. inversion H. split; reflexivity. Qed.

Lemma preserves_ret {A X} (f : Engine -> X) (a : A) : preserves f (ret a).
Proof. intros e. reflexivity. Qed.

Lemma preserves_raise {A X} (f : Engine -> X) (x : error) :
  preserves f (@raise _ A x).
Proof. intros e. reflexivity. Qed.

Lemma preserves_lift {A X} (f : Engine -> X) (r : Result A) :
  preserves f (lift r).
Proof. intros e. reflexivity. Qed.

Lemma preserves_gets {A X} (f : Engine -> X) (p : Engine -> A) :
  preserves f (gets p).
Proof. intros e. reflexivity. Qed.

Lemma preserves_modify {X} (f : Engine -> X) (u : Engine -> Engine) :
  (forall e, f (u e) = f e) -> preserves f (modify u).
Proof. intros H e. apply H. Qed.

Lemma preserves_bind {A B X} (f : Engine -> X) (m : M A) (k : A -> M B) :
  preserves f m -> (forall a, preserves f (k a)) -> preserves f (bind m k).
Proof.
  intros Hm Hk e. unfold bind.
  specialize (Hm e). destruct (m e) as [[a|x] e1]; cbn [snd] in *.
  - rewrite Hk. exact Hm.
  - exact Hm.
Qed.

End Calls.

(** Proves that a call built from [bind], [ret], [lift], [gets], [raise]
    and [modify] preserves a component, the updates being by setters that
    leave the component alone. *)
Ltac preserves_step :=
  first
    [ apply preserves_ret
    | apply preserves_raise
    | apply preserves_lift
    | apply preserves_gets
    | apply preserves_modify; intros; reflexivity
    | apply preserves_bind; [| intros ]
    | match goal with
      | |- preserves _ (if ?b then _ else _) => destruct b
      | |- preserves _ (match ?x with _ => _ end) => destruct x
      | |- preserves _ (let '(_, _) := ?x in _) => destruct x
      end ].

Ltac preserves_tac := repeat preserves_step.

(** ** What the steps of [generate] leave of the sequences *)

Section SequencesKept.
Context `{C : Collab}.

Lemma call_model_sequences (input : ModelInput Emb Mask) :
  preserves current_sequences (call_model input).
Proof. unfold call_model, get_forward_context. preserves_tac. Qed.

Lemma prepare_prefill_sequences (requests : list Seq) :
  preserves current_sequences (_prepare_prefill requests).
Proof. unfold _prepare_prefill, set_forward_context. preserves_tac. Qed.

Lemma prepare_decode_sequences (requests : list Seq) :
  preserves current_sequences (_prepare_decode requests).
Proof. unfold _prepare_decode, set_forward_context. preserves_tac. Qed.

Lemma direct_forward_sequences (use_tts : bool) (mel : option (Z -> Emb))
    (pos : option (PosEmbedding Emb)) (ids positions : list Z) :
  preserves current_sequences (direct_forward use_tts mel pos ids positions).
Proof.
  unfold direct_forward. preserves_tac; try apply call_model_sequences.
Qed.

Lemma plan_forward_sequences (tts : option TtsModules) (bs : nat)
    (gv : GraphVars) :
  preserves current_sequences (plan_forward tts bs gv).
Proof.
  unfold plan_forward. preserves_tac; try apply call_model_sequences.
Qed.

Lemma write_buffers_sequences (gbs : nat) (f : GraphVars -> Result GraphVars)
    (gv : GraphVars) :
  preserves current_sequences (write_buffers gbs f gv).
Proof. unfold write_buffers, set_forward_context. preserves_tac. Qed.

Lemma load_buffers_sequences (gbs bs : nat) (ids positions : list Z)
    (context : ForwardContext) (gv : GraphVars) :
  preserves current_sequences (load_buffers gbs bs ids positions context gv).
Proof.
  unfold load_buffers.
  repeat (apply preserves_bind; [apply write_buffers_sequences | intros]).
  apply write_buffers_sequences.
Qed.

Lemma run_decode_sequences (ids positions : list Z) (context : ForwardContext)
    (mel : option (Z -> Emb)) (pos : option (PosEmbedding Emb)) :
  preserves current_sequences
    (_run_decode_with_graph ids positions context mel pos).
Proof.
  unfold _run_decode_with_graph, set_forward_context.
  preserves_tac;
    try apply direct_forward_sequences;
    try apply load_buffers_sequences;
    try apply plan_forward_sequences.
Qed.

Lemma capture_loop_sequences (tts : option TtsModules) (sizes : list nat) :
  forall gv, preserves current_sequences (capture_loop tts sizes gv).
Proof.
  induction sizes as [|bs rest IH]; intros gv; cbn [capture_loop].
  - apply preserves_ret.
  - unfold set_forward_context, reset_forward_context.
    preserves_tac; try apply plan_forward_sequences; try apply IH.
Qed.

Lemma capture_sequences (mel : option (Z -> Emb))
    (pos : option (PosEmbedding Emb)) :
  preserves current_sequences (_capture_cuda_graphs mel pos).
Proof.
  unfold _capture_cuda_graphs.
  preserves_tac; try apply capture_loop_sequences.
Qed.

Lemma select_tokens_sequences (temperature : Q) (requests : list Seq)
    (logits : list (list Logit)) :
  preserves current_sequences (select_tokens temperature requests logits).
Proof. unfold select_tokens. preserves_tac. Qed.

Lemma select_tokens_kv (temperature : Q) (requests : list Seq)
    (logits : list (list Logit)) :
  preserves kv_manager (select_tokens temperature requests logits).
Proof. unfold select_tokens. preserves_tac. Qed.

Lemma decode_logits_sequences (a : GenArgs) :
  preserves current_sequences (decode_logits a).
Proof.
  unfold decode_logits, get_forward_context, reset_forward_context.
  preserves_tac;
    try apply prepare_decode_sequences; try apply run_decode_sequences.
Qed.

Lemma prefill_forward_sequences (a : GenArgs) :
  preserves current_sequences (prefill_forward a).
Proof.
  unfold prefill_forward. preserves_tac; try apply call_model_sequences.
Qed.

End SequencesKept.

(** ** The loop over the tokens of a decode step *)

Section DecodeTokens.
Context `{C : Collab}.

Lemma advance_sequence_run (i : nat) (t : Z) (e : Engine) (req : Seq) :
  current_sequences e !! i = Some req ->
  advance_sequence i t e =
  (Ok tt,
   set_sequences
     (<[i := snd (kv_append_to_seq (kv_manager e) (append_token req t))]>
        (current_sequences e))
     (set_kv_manager
        (fst (kv_append_to_seq (kv_manager e) (append_token req t))) e)).
Proof.
  intros Hreq. unfold advance_sequence, bind, gets, modify.
  rewrite Hreq.
  destruct (kv_append_to_seq (kv_manager e) (append_token req t)) as [k' req'].
  reflexivity.
Qed.

(** What the loop over the tokens of a decode step does: the generated
    tokens change as in the loop over the first tokens; the sequence of a
    row whose token is a stop token stays as it is, the sequence of any
    other row is given its token and handed to the cache manager. *)
Lemma decode_token_loop_spec (stop : option (list Z)) (tokens : list Z) :
  forall (i : nat) (g : list (list Z)) (flag : bool) (e : Engine),
    (i + length tokens <= length g)%nat ->
    (i + length tokens <= length (current_sequences e))%nat ->
    exists g' e',
      decode_token_loop stop i tokens g flag e
      = (Ok (g', flag || existsb (stop_hit stop) tokens), e') /\
      first_token_loop stop i tokens g flag
      = Ok (g', flag || existsb (stop_hit stop) tokens) /\
      length (current_sequences e') = length (current_sequences e) /\
      (forall k t, tokens !! k = Some t ->
         if stop_hit stop t
         then current_sequences e' !! (i + k)%nat
              = current_sequences e !! (i + k)%nat
         else exists kv req,
                current_sequences e !! (i + k)%nat = Some req /\
                current_sequences e' !! (i + k)%nat
                = Some (snd (kv_append_to_seq kv (append_token req t)))) /\
      (forall k, (k < i \/ i + length tokens <= k)%nat ->
         current_sequences e' !! k = current_sequences e !! k).
Proof.
  induction tokens as [|t rest IH]; intros i g flag e Hg Hs.
  - exists g, e. cbn. rewrite orb_false_r.
    repeat split; try reflexivity.
    intros k t Hk. rewrite lookup_nil in Hk. discriminate.
  - cbn [decode_token_loop first_token_loop existsb length] in *.
    destruct (stop_hit stop t) eqn:Hstop.
    + destruct (IH (S i) g true e) as [g' [e' (Hrun & Hfirst & Hl & Hrows & Hframe)]];
        [lia | lia |].
      exists g', e'. rewrite Hrun, Hfirst, orb_true_r. cbn [orb].
      split; [reflexivity|]. split; [reflexivity|]. split; [exact Hl|]. split.
      * intros [|k] t' Hk.
        -- simpl in Hk. inversion Hk; subst t'. rewrite Hstop.
           rewrite Nat.add_0_r. apply Hframe. lia.
        -- simpl in Hk. replace (i + S k)%nat with (S i + k)%nat by lia.
           apply Hrows. exact Hk.
      * intros k Hk. apply Hframe. lia.
    + destruct (current_sequences e !! i) as [req|] eqn:Hreq.
      2:{ apply lookup_ge_None in Hreq. lia. }
      destruct (g !! i) as [gi|] eqn:Hgi.
      2:{ apply lookup_ge_None in Hgi. lia. }
      unfold bind at 1. rewrite (advance_sequence_run i t e req Hreq).
      unfold bind at 1. unfold lift at 1. unfold append_generated.
      rewrite Hgi.
      set (kv := kv_manager e).
      set (req' := snd (kv_append_to_seq kv (append_token req t))).
      set (e1 := set_sequences _ _).
      destruct (IH (S i) (<[i := gi ++ [t]]> g) flag e1)
        as [g' [e' (Hrun & Hfirst & Hl & Hrows & Hframe)]].
      { rewrite length_insert. lia. }
      { subst e1. cbn [current_sequences set_sequences].
        rewrite length_insert. lia. }
      exists g', e'. rewrite Hrun, Hfirst. cbn [orb].
      subst e1. cbn [current_sequences set_sequences] in *.
      rewrite length_insert in Hl.
      split; [reflexivity|]. split; [reflexivity|]. split; [exact Hl|]. split.
      * intros [|k] t' Hk.
        -- simpl in Hk. inversion Hk; subst t'. rewrite Hstop.
           rewrite Nat.add_0_r. exists kv, req. split; [exact Hreq|].
           rewrite Hframe by lia.
           apply list_lookup_insert_eq. apply lookup_lt_Some in Hreq. lia.
        -- simpl in Hk. replace (i + S k)%nat with (S i + k)%nat by lia.
           specialize (Hrows k t' Hk).
           destruct (stop_hit stop t').
           ++ rewrite Hrows. apply list_lookup_insert_ne. lia.
           ++ destruct Hrows as [kv' [req'' [H1 H2]]].
              exists kv', req''. split; [|exact H2].
              rewrite list_lookup_insert_ne in H1 by lia. exact H1.
      * intros k Hk. rewrite Hframe by lia.
        apply list_lookup_insert_ne. lia.
Qed.

(** Without stop tokens a loop that returns has found a sequence and a row
    of generated tokens for each token. *)
Lemma decode_token_loop_inv (stop : option (list Z)) (tokens : list Z) :
  (forall t, stop_hit stop t = false) ->
  forall (i : nat) (g : list (list Z)) (flag : bool) (e e' : Engine) r,
    decode_token_loop stop i tokens g flag e = (Ok r, e') ->
    (i + length tokens <= length g)%nat /\
    (i + length tokens <= length (current_sequences e))%nat \/
    tokens = [].
Proof.
  intros Hno. induction tokens as [|t rest IH]; intros i g flag e e' r Hrun.
  - right. reflexivity.
  - left. cbn [decode_token_loop length] in *. rewrite Hno in Hrun.
    destruct (current_sequences e !! i) as [req|] eqn:Hreq.
    2:{ unfold bind at 1 in Hrun. unfold advance_sequence, bind, gets in Hrun.
        rewrite Hreq in Hrun. discriminate. }
    unfold bind at 1 in Hrun. rewrite (advance_sequence_run i t e req Hreq) in Hrun.
    unfold bind at 1 in Hrun. unfold lift at 1 in Hrun.
    unfold append_generated in Hrun.
    destruct (g !! i) as [gi|] eqn:Hgi; [|discriminate].
    apply lookup_lt_Some in Hreq. apply lookup_lt_Some in Hgi.
    apply IH in Hrun. cbn [current_sequences set_sequences] in Hrun.
    rewrite !length_insert in Hrun.
    destruct Hrun as [[H1 H2]| ->]; [lia | simpl; lia].
Qed.

End DecodeTokens.

(** ** The stop policy of the decode loop *)

Section StopPolicy.
Context `{C : Collab}.

(** C1. In the decode loop, when the tokens sampled in a step hold a stop
    token for some row: the token of a stopping row is appended neither to
    its generated tokens nor to its sequence; the token of every other row
    of the step is appended to its generated tokens and to its sequence
    (and the sequence is handed to the cache manager); and the loop halts
    after this step whatever number of steps was left, for all rows.  In
    particular, with two rows that each hold the one token of step 1 (the
    token sampled after the prefill), if in step 2 (the first turn of the
    decode loop) row 0 samples a stop token and row 1 does not, the loop
    ends with row 0 unchanged and exactly two generated tokens in row 1. *)
Theorem decode_stop_halts_batch (a : GenArgs) (e e1 : Engine)
    (tokens : list Z) (g : list (list Z)) :
  decode_next_tokens a e = (Ok tokens, e1) ->
  length tokens = length g ->
  length tokens = length (current_sequences e1) ->
  Exists (fun t => stop_hit (stop_tokens a) t = true) tokens ->
  exists g' e',
    (forall n, decode_loop a (S n) g e = (Ok g', e')) /\
    length g' = length g /\
    length (current_sequences e') = length (current_sequences e1) /\
    (forall i t row,
       tokens !! i = Some t -> g !! i = Some row ->
       if stop_hit (stop_tokens a) t
       then g' !! i = Some row /\
            current_sequences e' !! i = current_sequences e1 !! i
       else g' !! i = Some (row ++ [t]) /\
            exists kv req,
              current_sequences e1 !! i = Some req /\
              current_sequences e' !! i
              = Some (snd (kv_append_to_seq kv (append_token req t)))) /\
    (forall t0 t1 a0 a1,
       tokens = [t0; t1] -> g = [[a0]; [a1]] ->
       stop_hit (stop_tokens a) t0 = true ->
       stop_hit (stop_tokens a) t1 = false ->
       g' = [[a0]; [a1; t1]]).
Proof.
  intros Hnext Hlg Hls Hstop.
  destruct (decode_token_loop_spec (stop_tokens a) tokens 0 g false e1)
    as [g' [e' (Hrun & Hfirst & Hl & Hseqs & _)]]; [simpl; lia | simpl; lia |].
  destruct (first_token_loop_spec (stop_tokens a) tokens 0 g false)
    as [g'' [Hfirst' [Hgl [Hrows _]]]]; [simpl; lia|].
  rewrite Hfirst in Hfirst'. inversion Hfirst'; subst g''. clear Hfirst'.
  assert (existsb (stop_hit (stop_tokens a)) tokens = true) as Hex.
  { apply existsb_exists. apply Exists_exists in Hstop.
    destruct Hstop as [t [Hin Ht]]. exists t.
    split; [apply list_elem_of_In; exact Hin | exact Ht]. }
  rewrite Hex in Hrun. cbn [orb] in Hrun.
  assert (forall i t row,
            tokens !! i = Some t -> g !! i = Some row ->
            if stop_hit (stop_tokens a) t
            then g' !! i = Some row /\
                 current_sequences e' !! i = current_sequences e1 !! i
            else g' !! i = Some (row ++ [t]) /\
                 exists kv req,
                   current_sequences e1 !! i = Some req /\
                   current_sequences e' !! i
                   = Some (snd (kv_append_to_seq kv (append_token req t))))
    as Hall.
  { intros i t row Hi Hrow.
    specialize (Hrows i t Hi). specialize (Hseqs i t Hi).
    cbn [Nat.add] in Hrows, Hseqs. rewrite Hrow in Hrows. cbn in Hrows.
    destruct (stop_hit (stop_tokens a) t); split; assumption. }
  exists g', e'. split; [|split; [|split; [|split]]].
  - intros n. cbn [decode_loop].
    erewrite bind_ok by exact Hnext.
    erewrite bind_ok by exact Hrun.
    reflexivity.
  - exact Hgl.
  - exact Hl.
  - exact Hall.
  - intros t0 t1 a0 a1 -> -> H0 H1.
    pose proof (Hall 0%nat t0 [a0] eq_refl eq_refl) as Hr0.
    pose proof (Hall 1%nat t1 [a1] eq_refl eq_refl) as Hr1.
    rewrite H0 in Hr0. rewrite H1 in Hr1.
    destruct Hr0 as [Hr0 _]. destruct Hr1 as [Hr1 _].
    destruct g' as [|r0 [|r1 [|r2 g']]]; simpl in Hgl; try discriminate.
    simpl in Hr0, Hr1. inversion Hr0. inversion Hr1. reflexivity.
Qed.

End StopPolicy.

(** C1 on the mock: two rows, stop token 3, nine decode steps left.  Step 1
    (after the prefill) gives the tokens 2 and 1; in step 2 row 0 samples
    the stop token and row 1 the token 0: the loop ends there, row 1 holds
    two generated tokens. *)
Lemma decode_stop_halts_batch_witness :
  let table :=
    Mock.fixed [[[1; 2; 7; 3]; [1; 9; 0; 0]]; [[0; 1; 1; 5]; [9; 0; 0; 0]]] in
  let a := Mock.args table [[5; 9; 2]; [7; 7; 7]] 3 10 0 (Some [3]) in
  let e0 := Mock.engine table Mock.capacity false in
  let e1 := snd (prefill_logits a e0) in
  let e2 := snd (append_first_loop [2; 1] 0 2 e1) in
  fst (decode_loop a 9 [[2]; [1]] e2) = Ok [[2]; [1; 0]].
Proof.
  intros table a e0 e1 e2.
  destruct (decode_next_tokens a e2) as [r e3] eqn:Hnext.
  assert (r = Ok [3; 0]) as ->
    by (vm_compute in Hnext; inversion Hnext; reflexivity).
  destruct (decode_stop_halts_batch a e2 e3 [3; 0] [[2]; [1]] Hnext)
    as [g' [e' (Hloop & _ & _ & _ & Hpair)]].
  - reflexivity.
  - vm_compute in Hnext. inversion Hnext. reflexivity.
  - constructor. reflexivity.
  - rewrite (Hloop 8%nat). cbn [fst].
    rewrite (Hpair 3 0 2 1); reflexivity.
Defined.

(** ** The ceiling on the batch size *)

Section Ceiling.
Context `{C : Collab}.


End Ceiling.



(** ** Greedy generation *)

Section Greedy.
Context `{C : Collab}.

Lemma argmax_lookup (logits : list (list Logit)) (tokens : list Z) :
  argmax logits = Ok tokens ->
  length tokens = length logits /\
  forall i, argmax_at i logits = tokens !! i.
Proof.
  revert tokens. induction logits as [|row rest IH]; intros tokens H.
  - simpl in H. inversion H. split; [reflexivity|]. intros i.
    unfold argmax_at. rewrite !lookup_nil. reflexivity.
  - cbn [argmax] in H. destruct (argmax_row row) as [t|] eqn:Hrow; [|discriminate].
    destruct (argmax rest) as [ts|] eqn:Hrest; [|discriminate].
    inversion H; subst tokens. destruct (IH ts eq_refl) as [Hl Hi].
    split; [simpl; lia|]. intros [|i].
    + unfold argmax_at. simpl. rewrite Hrow. reflexivity.
    + unfold argmax_at in *. simpl. apply Hi.
Qed.

Lemma select_tokens_greedy (temperature : Q) (requests : list Seq)
    (logits : list (list Logit)) (e e' : Engine) (tokens : list Z) :
  temperature_positive temperature = false ->
  select_tokens temperature requests logits e = (Ok tokens, e') ->
  argmax logits = Ok tokens /\ e' = e.
Proof.
  intros Ht. unfold select_tokens. rewrite Ht. apply lift_inv.
Qed.

Lemma first_token_loop_inv (stop : option (list Z)) (tokens : list Z) :
  (forall t, stop_hit stop t = false) ->
  forall (i : nat) (g : list (list Z)) (flag : bool) r,
    first_token_loop stop i tokens g flag = Ok r ->
    (i + length tokens <= length g)%nat \/ tokens = [].
Proof.
  intros Hno. induction tokens as [|t rest IH]; intros i g flag r Hrun.
  - right. reflexivity.
  - left. cbn [first_token_loop length] in *. rewrite Hno in Hrun.
    unfold append_generated in Hrun.
    destruct (g !! i) as [gi|] eqn:Hgi; [|discriminate].
    apply lookup_lt_Some in Hgi. apply IH in Hrun.
    rewrite length_insert in Hrun. destruct Hrun as [H| ->]; [lia | simpl; lia].
Qed.

(** One step without stop tokens, on the generated tokens: every row gets
    the token of its index, if there is one. *)
Lemma first_token_loop_rows (stop : option (list Z)) (tokens : list Z)
    (g : list (list Z)) r :
  (forall t, stop_hit stop t = false) ->
  first_token_loop stop 0 tokens g false = Ok r ->
  snd r = false /\
  length (fst r) = length g /\
  forall i row, g !! i = Some row ->
    fst r !! i = Some (row ++ option_list (tokens !! i)).
Proof.
  intros Hno Hrun.
  assert (0 + length tokens <= length g)%nat as Hlen.
  { destruct (first_token_loop_inv stop tokens Hno 0 g false r Hrun) as [H| ->];
      [exact H | simpl; lia]. }
  destruct (first_token_loop_spec stop tokens 0 g false Hlen)
    as [g' [Hrun' [Hl [Hrows Hframe]]]].
  rewrite Hrun in Hrun'. inversion Hrun'; subst r. cbn [fst snd].
  assert (existsb (stop_hit stop) tokens = false) as ->.
  { apply not_true_is_false. intros Hex. apply existsb_exists in Hex.
    destruct Hex as [t [_ Ht]]. rewrite Hno in Ht. discriminate. }
  split; [reflexivity|]. split; [exact Hl|].
  intros i row Hrow. destruct (tokens !! i) as [t|] eqn:Ht.
  - specialize (Hrows i t Ht). cbn [Nat.add] in Hrows.
    rewrite Hrows, Hrow, Hno. reflexivity.
  - rewrite Hframe by (right; apply lookup_ge_None in Ht; lia).
    rewrite Hrow. cbn. rewrite app_nil_r. reflexivity.
Qed.

End Greedy.

Section Prompts.
Context `{C : Collab}.
Hypothesis laws : SeqLaws C.

Lemma has_prompt_of (req : Seq) (p : list Z) :
  has_prompt req p -> prompt_of req = p.
Proof.
  intros [Hn [rest Ht]]. unfold prompt_of. rewrite Hn, Ht.
  apply take_app_length.
Qed.

Lemma has_prompt_new (l : list Z) : has_prompt (Seq_new l) l.
Proof.
  split; [apply (new_prompt_count laws)|].
  exists []. rewrite (new_tokens laws), app_nil_r. reflexivity.
Qed.

Lemma has_prompt_append (req : Seq) (t : Z) (p : list Z) :
  has_prompt req p -> has_prompt (append_token req t) p.
Proof.
  intros [Hn [rest Ht]]. split.
  - rewrite (append_prompt_count laws). exact Hn.
  - exists (rest ++ [t]). rewrite (append_tokens laws), Ht, app_assoc.
    reflexivity.
Qed.

Lemma has_prompt_allocate (k : KV) (req : Seq) (p : list Z) :
  has_prompt req p -> has_prompt (snd (kv_allocate k req)) p.
Proof.
  intros [Hn Ht]. destruct (allocate_keeps laws k req) as [H1 H2].
  split; [rewrite H2; exact Hn | rewrite H1; exact Ht].
Qed.

Lemma has_prompt_append_to_seq (k : KV) (req : Seq) (p : list Z) :
  has_prompt req p -> has_prompt (snd (kv_append_to_seq k req)) p.
Proof.
  intros [Hn Ht]. destruct (append_to_seq_keeps laws k req) as [H1 H2].
  split; [rewrite H2; exact Hn | rewrite H1; exact Ht].
Qed.

Lemma has_prompt_remove (k : KV) (req : Seq) (p : list Z) :
  has_prompt req p -> has_prompt (snd (kv_remove_seq k req)) p.
Proof.
  intros [Hn Ht]. destruct (remove_keeps laws k req) as [H1 H2].
  split; [rewrite H2; exact Hn | rewrite H1; exact Ht].
Qed.

Lemma keeps_ret {A} (P : Engine -> Prop) (a : A) : keeps P (ret a).
Proof. intros e H. exact H. Qed.

Lemma keeps_raise {A} (P : Engine -> Prop) (x : error) : keeps P (@raise _ A x).
Proof. intros e H. exact H. Qed.

Lemma keeps_bind {A B} (P : Engine -> Prop) (m : M A) (k : A -> M B) :
  keeps P m -> (forall a, keeps P (k a)) -> keeps P (bind m k).
Proof.
  intros Hm Hk e He. unfold bind. specialize (Hm e He).
  destruct (m e) as [[a|x] e1]; cbn [snd] in *; [apply Hk|]; exact Hm.
Qed.

(** A call that leaves the sequences leaves their prompts. *)
Lemma sequences_keeps {A} (ps : list (list Z)) (m : M A) :
  preserves current_sequences m -> keeps (holds_prompts ps) m.
Proof. intros H e He. unfold holds_prompts. rewrite H. exact He. Qed.

Lemma advance_sequence_keeps (ps : list (list Z)) (i : nat) (t : Z) :
  keeps (holds_prompts ps) (advance_sequence i t).
Proof.
  intros e He. unfold advance_sequence, bind, gets.
  destruct (current_sequences e !! i) as [req|] eqn:Hreq; [|exact He].
  pose proof (has_prompt_append_to_seq (kv_manager e) (append_token req t)) as Hp.
  destruct (kv_append_to_seq (kv_manager e) (append_token req t)) as [k' req'].
  cbn [snd] in Hp. cbn. unfold holds_prompts in *.
  cbn [current_sequences set_sequences].
  destruct (Forall2_lookup_l _ _ _ _ _ He Hreq) as [p [Hpi Hhas]].
  rewrite <- (list_insert_id ps i p Hpi).
  apply Forall2_insert; [exact He|].
  apply Hp, has_prompt_append. exact Hhas.
Qed.

Lemma append_first_loop_keeps (ps : list (list Z)) (tokens : list Z) (n : nat) :
  forall i, keeps (holds_prompts ps) (append_first_loop tokens i n).
Proof.
  induction n as [|n IH]; intros i; cbn [append_first_loop].
  - apply keeps_ret.
  - destruct (tokens !! i); [|apply keeps_raise].
    apply keeps_bind; [apply advance_sequence_keeps | intros; apply IH].
Qed.

Lemma decode_token_loop_keeps (ps : list (list Z)) (stop : option (list Z))
    (tokens : list Z) :
  forall i g flag,
    keeps (holds_prompts ps) (decode_token_loop stop i tokens g flag).
Proof.
  induction tokens as [|t rest IH]; intros i g flag; cbn [decode_token_loop].
  - apply keeps_ret.
  - destruct (stop_hit stop t); [apply IH|].
    apply keeps_bind; [apply advance_sequence_keeps | intros].
    apply keeps_bind; [|intros; apply IH].
    apply sequences_keeps, preserves_lift.
Qed.

Lemma decode_loop_keeps (ps : list (list Z)) (a : GenArgs) (n : nat) :
  forall g, keeps (holds_prompts ps) (decode_loop a n g).
Proof.
  induction n as [|n IH]; intros g; cbn [decode_loop].
  - apply keeps_ret.
  - apply keeps_bind.
    + unfold decode_next_tokens. apply keeps_bind.
      * apply sequences_keeps, decode_logits_sequences.
      * intros. apply keeps_bind.
        -- apply sequences_keeps, preserves_gets.
        -- intros. apply sequences_keeps, select_tokens_sequences.
    + intros tokens. apply keeps_bind.
      * apply decode_token_loop_keeps.
      * intros r. destruct (snd r); [apply keeps_ret | apply IH].
Qed.

Lemma remove_loop_keeps (sequences : list Seq) :
  forall k ps,
    Forall2 has_prompt sequences ps ->
    Forall2 has_prompt (snd (remove_loop k sequences)) ps.
Proof.
  induction sequences as [|req rest IH]; intros k ps H.
  - inversion H; subst. constructor.
  - inversion H as [|? p ? ps' Hreq Hrest]; subst.
    cbn [remove_loop]. pose proof (has_prompt_remove k req p Hreq) as Hp.
    destruct (kv_remove_seq k req) as [k1 req']. cbn [snd] in Hp.
    specialize (IH k1 ps' Hrest). destruct (remove_loop k1 rest) as [k2 rest'].
    cbn [snd] in *. constructor; assumption.
Qed.

(** The sequences admitted for the rows of the prompt hold, as their
    prompts, the token histories they were created with. *)
Lemma admit_loop_prompts (a : GenArgs) (rows : list (list Z)) :
  forall (acc : list Seq) (ps : list (list Z)) (e e' : Engine)
         (sequences : list Seq),
    Forall2 has_prompt acc ps ->
    admit_loop a rows acc e = (Ok sequences, e') ->
    exists created,
      Forall2 (fun row p => initial_token_ids a row = Ok p) rows created /\
      Forall2 has_prompt sequences (ps ++ created).
Proof.
  induction rows as [|row rest IH]; intros acc ps e e' sequences Hacc Hrun.
  - cbn in Hrun. inversion Hrun; subst. exists [].
    split; [constructor | rewrite app_nil_r; exact Hacc].
  - cbn [admit_loop] in Hrun.
    apply bind_inv in Hrun. destruct Hrun as [toks [e1 [Htoks Hrun]]].
    apply lift_inv in Htoks. destruct Htoks as [Htoks ->].
    unfold bind at 1 in Hrun. unfold gets at 1 in Hrun.
    pose proof (has_prompt_allocate (kv_manager e) (Seq_new toks) toks
                  (has_prompt_new toks)) as Hp.
    destruct (kv_allocate (kv_manager e) (Seq_new toks)) as [k' req].
    cbn [snd] in Hp.
    unfold bind at 1 in Hrun. unfold modify at 1 in Hrun.
    apply (IH _ (ps ++ [toks])) in Hrun.
    + destruct Hrun as [created [Hcreated Hall]].
      exists (toks :: created). split; [constructor; assumption|].
      rewrite <- app_assoc in Hall. exact Hall.
    + apply Forall2_app; [exact Hacc | constructor; [exact Hp | constructor]].
Qed.

End Prompts.

Section GreedyRun.
Context `{C : Collab}.

Lemma final_rows_spec (sequences : list Seq) (g : list (list Z)) (n : nat) :
  forall (i : nat) (out : list (list Z)),
    final_rows sequences g i n = Ok out ->
    length out = n /\
    forall k, (k < n)%nat ->
      exists req gk,
        sequences !! (i + k)%nat = Some req /\
        g !! (i + k)%nat = Some gk /\
        out !! k = Some (prompt_of req ++ gk).
Proof.
  induction n as [|n IH]; intros i out Hrun.
  - cbn in Hrun. inversion Hrun. split; [reflexivity|]. intros k Hk. lia.
  - cbn [final_rows] in Hrun.
    destruct (sequences !! i) as [req|] eqn:Hreq; [|discriminate].
    destruct (g !! i) as [gi|] eqn:Hgi; [|discriminate].
    destruct (final_rows sequences g (S i) n) as [out'|] eqn:Hrest;
      [|discriminate].
    inversion Hrun; subst out. destruct (IH (S i) out' Hrest) as [Hl Hrows].
    split; [simpl; lia|]. intros [|k] Hk.
    + exists req, gi. rewrite Nat.add_0_r. repeat split; assumption.
    + destruct (Hrows k) as [req' [gk (H1 & H2 & H3)]]; [lia|].
      exists req', gk. replace (i + S k)%nat with (S i + k)%nat by lia.
      repeat split; assumption.
Qed.

(** One decode step without stop tokens, on the generated tokens. *)
Lemma decode_token_loop_rows (stop : option (list Z)) (tokens : list Z)
    (g : list (list Z)) (e e' : Engine) r :
  (forall t, stop_hit stop t = false) ->
  decode_token_loop stop 0 tokens g false e = (Ok r, e') ->
  snd r = false /\
  length (fst r) = length g /\
  forall i row, g !! i = Some row ->
    fst r !! i = Some (row ++ option_list (tokens !! i)).
Proof.
  intros Hno Hrun.
  assert ((0 + length tokens <= length g)%nat /\
          (0 + length tokens <= length (current_sequences e))%nat) as [H1 H2].
  { destruct (decode_token_loop_inv stop tokens Hno 0 g false e e' r Hrun)
      as [H| ->]; [exact H | simpl; lia]. }
  destruct (decode_token_loop_spec stop tokens 0 g false e H1 H2)
    as [g' [e'' (Hrun' & Hfirst & _)]].
  rewrite Hrun in Hrun'. inversion Hrun'; subst r e''.
  eapply first_token_loop_rows; eassumption.
Qed.

(** A decode loop that returns, greedy and without stop tokens, is a greedy
    run: each row of generated tokens grows by the arg-maxes of its index
    in the logits of the successive steps. *)
Lemma decode_loop_greedy (a : GenArgs) :
  temperature_positive (temperature a) = false ->
  (forall t, stop_hit (stop_tokens a) t = false) ->
  forall (n : nat) (g : list (list Z)) (e e' : Engine) (gfin : list (list Z)),
    decode_loop a n g e = (Ok gfin, e') ->
    exists rest,
      greedy_steps a n e g rest e' gfin /\
      length rest = n /\
      length gfin = length g /\
      forall i row, g !! i = Some row ->
        gfin !! i = Some (row ++ omap (argmax_at i) rest).
Proof.
  intros Htemp Hno. induction n as [|n IH]; intros g e e' gfin Hrun.
  - cbn in Hrun. inversion Hrun; subst. exists [].
    split; [constructor|]. split; [reflexivity|]. split; [reflexivity|].
    intros i row Hrow. cbn. rewrite app_nil_r. exact Hrow.
  - cbn [decode_loop] in Hrun.
    apply bind_inv in Hrun. destruct Hrun as [tokens [e1 [Hnext Hrun]]].
    apply bind_inv in Hrun. destruct Hrun as [r [e2 [Hloop Hrun]]].
    unfold decode_next_tokens in Hnext.
    apply bind_inv in Hnext. destruct Hnext as [logits [e0 [Hlogits Hnext]]].
    unfold bind at 1 in Hnext. unfold gets at 1 in Hnext.
    apply select_tokens_greedy in Hnext; [|exact Htemp].
    destruct Hnext as [Hargmax ->].
    destruct (decode_token_loop_rows _ _ _ _ _ _ Hno Hloop) as [Hflag [Hl1 Hrows1]].
    destruct r as [g1 flag]. cbn [fst snd] in *. subst flag.
    destruct (IH g1 e2 e' gfin Hrun) as [rest (Hsteps & Hlen & Hl & Hrows)].
    exists (logits :: rest).
    split; [econstructor; eassumption|].
    split; [simpl; lia|]. split; [lia|].
    intros i row Hrow.
    rewrite (Hrows i _ (Hrows1 i row Hrow)).
    destruct (argmax_lookup logits tokens Hargmax) as [_ Hat].
    cbn [omap list_omap]. rewrite Hat.
    destruct (tokens !! i); cbn; rewrite <- app_assoc; reflexivity.
Qed.

End GreedyRun.

Section GreedyClaim.
Context `{C : Collab}.
Hypothesis laws : SeqLaws C.

(** After the prefill the engine holds one sequence per row of the prompt,
    with the token history it was created with as its prompt. *)
Lemma prefill_logits_prompts (a : GenArgs) (e e1 : Engine)
    (logits : list (list Logit)) :
  prefill_logits a e = (Ok logits, e1) ->
  exists created,
    Forall2 (fun row p => initial_token_ids a row = Ok p)
            (t_rows (input_ids a)) created /\
    holds_prompts created e1.
Proof.
  unfold prefill_logits. intros Hrun.
  unfold bind at 1 in Hrun. unfold modify at 1 in Hrun.
  unfold bind at 1 in Hrun. unfold gets at 1 in Hrun.
  unfold bind at 1 in Hrun. unfold gets at 1 in Hrun.
  apply bind_inv in Hrun. destruct Hrun as [u [ec [_ Hrun]]].
  apply bind_inv in Hrun. destruct Hrun as [sequences [ea [Hadmit Hrun]]].
  unfold bind at 1 in Hrun. unfold modify at 1 in Hrun.
  destruct (admit_loop_prompts laws a _ [] [] _ _ _
              (List.Forall2_nil has_prompt) Hadmit)
    as [created [Hc Hall]].
  exists created. split; [exact Hc|].
  match type of Hrun with
  | ?tail ?s = _ =>
      assert (preserves current_sequences tail) as Hkeep
  end.
  { unfold reset_forward_context.
    preserves_tac;
      try apply prepare_prefill_sequences;
      try apply prefill_forward_sequences. }
  specialize (Hkeep (set_sequences sequences ea)).
  rewrite Hrun in Hkeep. cbn [snd current_sequences set_sequences] in Hkeep.
  unfold holds_prompts. rewrite Hkeep. exact Hall.
Qed.

Lemma omap_all_some {A B} (f : A -> option B) (l : list A) :
  Forall (fun x => is_Some (f x)) l -> length (omap f l) = length l.
Proof.
  induction 1 as [|x l [y Hy] _ IH]; [reflexivity|].
  cbn [omap list_omap length]. rewrite Hy. cbn [length]. f_equal. exact IH.
Qed.

Lemma greedy_steps_argmax (a : GenArgs) (n : nat) (e e' : Engine)
    (g g' : list (list Z)) (rest : list (list (list Logit))) :
  greedy_steps a n e g rest e' g' ->
  Forall (fun logits => is_ok (argmax logits) = true) rest.
Proof.
  induction 1 as [|? ? ? ? ? ? ? ? ? ? ? ? Harg]; constructor.
  - rewrite Harg. reflexivity.
  - assumption.
Qed.

Lemma argmax_at_some (i : nat) (logits : list (list Logit)) :
  is_ok (argmax logits) = true -> (i < length logits)%nat ->
  is_Some (argmax_at i logits).
Proof.
  intros Hok Hi. destruct (argmax logits) as [tokens|] eqn:Harg; [|discriminate].
  destruct (argmax_lookup logits tokens Harg) as [Hl Hat].
  rewrite Hat. apply lookup_lt_is_Some. lia.
Qed.

(** C7. For every call of [generate] with temperature 0 (not positive) and
    no stop token that returns a matrix: there is a greedy run, the logits
    of the prefill followed by the logits of each of the
    [max_new_tokens - 1] steps of the decode loop, each computed by the
    engine in the state the step before left, such that row [i] of the
    output is exactly the prompt of row [i] (the row of the input itself
    in the token mode) followed by the arg-maxes of row [i] of these
    logits, in order, one per step whose logits have a row [i] (so one per
    step when every step gives logits for every row). *)
Theorem greedy_generation (a : GenArgs) (e e' : Engine) (out : list (list Z)) :
  temperature_positive (temperature a) = false ->
  (forall t, stop_hit (stop_tokens a) t = false) ->
  generate a e = (Ok out, e') ->
  exists logits1 tokens1 rest e1 e2 e3 g1 gfin,
    prefill_logits a e = (Ok logits1, e1) /\
    argmax logits1 = Ok tokens1 /\
    append_first_loop tokens1 0 (length (current_sequences e1)) e1
    = (Ok tt, e2) /\
    greedy_steps a (Z.to_nat (max_new_tokens a - 1)) e2 g1 rest e3 gfin /\
    length rest = Z.to_nat (max_new_tokens a - 1) /\
    length out = batch_size_of a /\
    forall i row,
      t_rows (input_ids a) !! i = Some row ->
      exists prompt,
        initial_token_ids a row = Ok prompt /\
        (tts_embeddings a = None -> prompt = row) /\
        out !! i = Some (prompt ++ omap (argmax_at i) (logits1 :: rest)) /\
        (Forall (fun logits => (i < length logits)%nat) (logits1 :: rest) ->
         length (omap (argmax_at i) (logits1 :: rest)) = S (length rest)).
Proof.
  intros Htemp Hno Hgen. unfold generate in Hgen.
  apply bind_inv in Hgen. destruct Hgen as [logits1 [e1 [Hpre Hgen]]].
  unfold bind at 1 in Hgen. unfold gets at 1 in Hgen.
  apply bind_inv in Hgen. destruct Hgen as [tokens1 [e1' [Hsel Hgen]]].
  apply select_tokens_greedy in Hsel; [|exact Htemp].
  destruct Hsel as [Harg1 ->].
  apply bind_inv in Hgen. destruct Hgen as [r [e1' [Hfirst Hgen]]].
  apply lift_inv in Hfirst. destruct Hfirst as [Hfirst ->].
  destruct (first_token_loop_rows _ _ _ _ Hno Hfirst) as [Hflag [Hl1 Hrows1]].
  destruct r as [g1 flag]. cbn [fst snd] in *. subst flag.
  apply bind_inv in Hgen. destruct Hgen as [[] [e2 [Happ Hgen]]].
  apply bind_inv in Hgen. destruct Hgen as [gfin [e3 [Hloop Hgen]]].
  destruct (decode_loop_greedy a Htemp Hno _ _ _ _ _ Hloop)
    as [rest (Hsteps & Hlen & Hlfin & Hrows)].
  unfold generate_finish in Hgen.
  destruct (release_sequences_returns e3) as [seqs [e4 [Hrel Hseqs]]].
  erewrite bind_ok in Hgen by exact Hrel.
  apply bind_inv in Hgen. destruct Hgen as [output_ids [e5 [Hfinal Hgen]]].
  apply lift_inv in Hfinal. destruct Hfinal as [Hfinal ->].
  apply bind_inv in Hgen. destruct Hgen as [output [e5 [Htensor Hgen]]].
  apply lift_inv in Htensor. destruct Htensor as [Htensor ->].
  assert (output = output_ids) as ->.
  { unfold tensor2d in Htensor. destruct output_ids as [|r0 rs].
    - inversion Htensor. reflexivity.
    - destruct (forallb _ rs); inversion Htensor. reflexivity. }
  destruct (Nat.eqb (length output_ids) (batch_size_of a)) eqn:Hsize;
    [|discriminate].
  inversion Hgen; subst out e'. clear Hgen.
  destruct (final_rows_spec _ _ _ _ _ Hfinal) as [Hlout Hout].
  (* the prompts of the sequences, from admission to release *)
  destruct (prefill_logits_prompts a e e1 logits1 Hpre) as [created [Hcreated Hp1]].
  assert (Forall2 has_prompt seqs created) as Hprompts.
  { rewrite Hseqs. apply (remove_loop_keeps laws).
    change (holds_prompts created e3).
    pose proof (decode_loop_keeps laws created a
                  (Z.to_nat (max_new_tokens a - 1)) g1 e2) as H3.
    rewrite Hloop in H3. cbn [snd] in H3. apply H3.
    pose proof (append_first_loop_keeps laws created tokens1
                  (length (current_sequences e1)) 0%nat e1) as H2.
    rewrite Happ in H2. cbn [snd] in H2. apply H2. exact Hp1. }
  exists logits1, tokens1, rest, e1, e2, e3, g1, gfin.
  split; [exact Hpre|]. split; [exact Harg1|]. split; [exact Happ|].
  split; [exact Hsteps|]. split; [exact Hlen|]. split; [exact Hlout|].
  intros i row Hrow.
  assert (i < batch_size_of a)%nat as Hi
    by (apply lookup_lt_Some in Hrow; exact Hrow).
  destruct (Hout i Hi) as [req [gi (Hreq & Hgi & Houti)]].
  cbn [Nat.add] in Hreq, Hgi.
  destruct (Forall2_lookup_l _ _ _ _ _ Hcreated Hrow) as [prompt [Hci Hinit]].
  assert (prompt_of req = prompt) as Hpr.
  { apply (has_prompt_of req prompt).
    destruct (Forall2_lookup_l _ _ _ _ _ Hprompts Hreq) as [p' [Hp' Hhas]].
    rewrite Hci in Hp'. inversion Hp'; subst p'. exact Hhas. }
  exists prompt. split; [exact Hinit|]. split.
  { intros Hnone. unfold initial_token_ids in Hinit. rewrite Hnone in Hinit.
    inversion Hinit. reflexivity. }
  assert (g1 !! i = Some (option_list (argmax_at i logits1))) as Hg1.
  { rewrite (Hrows1 i []).
    - destruct (argmax_lookup logits1 tokens1 Harg1) as [_ Hat].
      rewrite Hat. reflexivity.
    - apply lookup_replicate_2. exact Hi. }
  split.
  { rewrite Houti, Hpr. f_equal. f_equal.
    rewrite (Hrows i _ Hg1) in Hgi. inversion Hgi.
    cbn [omap list_omap]. destruct (argmax_at i logits1); reflexivity. }
  intros Hall.
  change (S (length rest)) with (length (logits1 :: rest)).
  apply omap_all_some.
  assert (Forall (fun logits => is_ok (argmax logits) = true) (logits1 :: rest))
    as Hoks.
  { constructor; [rewrite Harg1; reflexivity|].
    eapply greedy_steps_argmax. exact Hsteps. }
  rewrite Forall_forall in *. intros logits Hin.
  apply argmax_at_some; [apply Hoks | apply Hall]; exact Hin.
Qed.

End GreedyClaim.

Lemma mock_seq_laws (table : nat -> nat -> ForwardContext -> list Z) :
  SeqLaws (Mock.collab table).
Proof.
  constructor; intros; cbn;
    try reflexivity; try (split; reflexivity).
  unfold Mock.append_to_seq.
  destruct (Nat.ltb _ _); split; reflexivity.
Qed.

(** C7 on the scenario of the specification: prompt [5, 9, 2], three new
    tokens, temperature 0, no stop token, the model mocked with fixed
    logits per step. *)
Lemma greedy_generation_witness :
  let table := Mock.fixed [[[1; 2; 7; 3]]; [[9; 1; 1; 1]]; [[0; 0; 0; 4]]] in
  let a := Mock.args table [[5; 9; 2]] 3 3 0 None in
  let e := Mock.engine table Mock.capacity false in
  exists (logits1 : list (list Z)) (rest : list (list (list Z))),
    length rest = 2%nat /\
    omap (@argmax_at (Mock.collab table) 0) (logits1 :: rest) = [2; 0; 3] /\
    fst (generate a e)
    = Ok [[5; 9; 2]
          ++ omap (@argmax_at (Mock.collab table) 0) (logits1 :: rest)].
Proof.
  intros table a e.
  destruct (generate a e) as [r e'] eqn:Hgen.
  assert (r = Ok [[5; 9; 2; 2; 0; 3]]) as ->
    by (vm_compute in Hgen; inversion Hgen; reflexivity).
  destruct (greedy_generation (mock_seq_laws table) a e e'
              [[5; 9; 2; 2; 0; 3]])
    as (logits1 & tokens1 & rest & e1 & e2 & e3 & g1 & gfin &
        _ & _ & _ & _ & Hlen & _ & Hrows).
  - reflexivity.
  - intros t. reflexivity.
  - exact Hgen.
  - destruct (Hrows 0%nat [5; 9; 2] eq_refl) as [prompt (_ & Hp & Hout & _)].
    rewrite (Hp eq_refl) in Hout. cbn [lookup list_lookup] in Hout.
    assert (omap (argmax_at 0) (logits1 :: rest) = [2; 0; 3]) as Hom.
    { inversion Hout as [Heq]. symmetry. exact Heq. }
    exists logits1, rest. split; [exact Hlen|]. split; [exact Hom|].
    exact (f_equal (fun r => Ok [[5; 9; 2] ++ r]) (eq_sym Hom)).
Defined.

(** ** The errors of the two preparers *)

Lemma decode_vars_loop_raises (bs : nat) (mode : option bool) (plen : nat)
    (requests : list Seq) :
  Exists (fun req => block_table req = []) requests ->
  forall v, decode_vars_loop bs mode plen requests v = Raise IndexError.
Proof.
  induction requests as [|req rest IH]; intros Hex v.
  - inversion Hex.
  - cbn [decode_vars_loop]. unfold decode_step_vars.
    destruct (block_table req) as [|b bt] eqn:Hbt.
    + reflexivity.
    + rewrite (py_last_nonempty (b :: bt) 0) by discriminate.
      apply IH. inversion Hex as [? ? Hhd|? ? Htl]; subst;
        [congruence | exact Htl].
Qed.

Lemma empty_block_table_dec (requests : list Seq) :
  Forall (fun req => block_table req <> []) requests \/
  Exists (fun req => block_table req = []) requests.
Proof.
  induction requests as [|req rest [IH|IH]].
  - left. constructor.
  - destruct (block_table req) as [|b bt] eqn:Hbt.
    + right. left. exact Hbt.
    + left. constructor; [congruence | exact IH].
  - right. right. exact IH.
Qed.

Section DecodeErrors.
Context `{C : Collab}.


End DecodeErrors.

Lemma slots_loop_raises (bs : nat) (req : Seq) (indices : list nat) :
  Exists (fun i => (length (block_table req) <= i)%nat) indices ->
  forall slots, slots_loop bs req indices slots = Raise IndexError.
Proof.
  induction indices as [|i rest IH]; intros Hex slots.
  - inversion Hex.
  - cbn [slots_loop]. destruct (block_table req !! i) as [b|] eqn:Hb.
    + apply IH. inversion Hex as [? ? Hhd|? ? Htl]; subst; [|exact Htl].
      apply lookup_lt_Some in Hb. lia.
    + reflexivity.
Qed.

Lemma slots_loop_returns (bs : nat) (req : Seq) (indices : list nat) :
  Forall (fun i => (i < length (block_table req))%nat) indices ->
  forall slots, exists s, slots_loop bs req indices slots = Ok s.
Proof.
  induction indices as [|i rest IH]; intros Hall slots.
  - exists slots. reflexivity.
  - inversion Hall as [|? ? Hi Hrest]; subst.
    cbn [slots_loop]. destruct (lookup_lt_is_Some_2 _ _ Hi) as [b ->].
    apply IH. exact Hrest.
Qed.

Lemma lacks_block_dec (req : Seq) : {lacks_block req} + {~ lacks_block req}.
Proof.
  unfold lacks_block.
  destruct (block_table req) as [|b bt].
  - right. intros [H _]. congruence.
  - destruct (lt_dec (num_cached_blocks req) (num_blocks req)) as [Hc|Hc];
      [|right; intros (_ & H & _); lia].
    destruct (lt_dec (length (b :: bt)) (num_blocks req)) as [Hl|Hl];
      [|right; intros (_ & _ & H); lia].
    left. repeat split; [discriminate | exact Hc | exact Hl].
Qed.

Lemma prefill_slots_raises (bs : nat) (req : Seq) (slots : list Z) :
  lacks_block req -> prefill_slots bs req slots = Raise IndexError.
Proof.
  intros (Hne & Hc & Hl). unfold prefill_slots.
  destruct (block_table req) as [|b bt] eqn:Hbt; [congruence|].
  apply slots_loop_raises.
  apply Exists_exists. exists (num_blocks req - 1)%nat. split.
  - apply elem_of_seq. lia.
  - rewrite Hbt. lia.
Qed.

Lemma prefill_slots_returns (bs : nat) (req : Seq) (slots : list Z) :
  ~ lacks_block req -> exists s, prefill_slots bs req slots = Ok s.
Proof.
  intros Hok. unfold prefill_slots.
  destruct (block_table req) as [|b bt] eqn:Hbt; [eauto|].
  destruct (lt_dec (num_cached_blocks req) (num_blocks req)) as [Hc|Hc].
  - apply slots_loop_returns. apply Forall_forall. intros i Hi.
    apply elem_of_seq in Hi.
    destruct (lt_dec (length (block_table req)) (num_blocks req)) as [Hl|Hl].
    + exfalso. apply Hok. repeat split; [rewrite Hbt; discriminate | | ]; assumption.
    + lia.
  - replace (num_blocks req - num_cached_blocks req)%nat with 0%nat by lia.
    eauto.
Qed.

Lemma prefill_loop_raises (bs : nat) (requests : list Seq) :
  Exists lacks_block requests ->
  forall v, prefill_loop bs requests v = Raise IndexError.
Proof.
  induction requests as [|req rest IH]; intros Hex v.
  - inversion Hex.
  - cbn [prefill_loop]. unfold prefill_step.
    destruct (lacks_block_dec req) as [Hl|Hl].
    + rewrite prefill_slots_raises by exact Hl. reflexivity.
    + destruct (prefill_slots_returns bs req (pv_slot_mapping v) Hl) as [s ->].
      apply IH. inversion Hex as [? ? Hhd|? ? Htl]; subst;
        [contradiction | exact Htl].
Qed.

Lemma prefill_loop_returns (bs : nat) (requests : list Seq) :
  Forall (fun req => ~ lacks_block req) requests ->
  forall v, exists v', prefill_loop bs requests v = Ok v'.
Proof.
  induction requests as [|req rest IH]; intros Hall v.
  - eauto.
  - inversion Hall as [|? ? Hreq Hrest]; subst.
    cbn [prefill_loop]. unfold prefill_step.
    destruct (prefill_slots_returns bs req (pv_slot_mapping v) Hreq) as [s ->].
    apply IH. exact Hrest.
Qed.

Lemma lacks_block_cases (requests : list Seq) :
  Forall (fun req => ~ lacks_block req) requests \/
  Exists lacks_block requests.
Proof.
  induction requests as [|req rest [IH|IH]].
  - left. constructor.
  - destruct (lacks_block_dec req) as [H|H].
    + right. left. exact H.
    + left. constructor; assumption.
  - right. right. exact IH.
Qed.

Lemma prefill_block_tables_returns (requests : list Seq) (v : PrefillVars) :
  (requests = [] -> cu_last (pv_cu_seqlens_q v) = cu_last (pv_cu_seqlens_k v)) ->
  exists t, prefill_block_tables requests v = Ok t.
Proof.
  intros Hnil. unfold prefill_block_tables.
  destruct (cu_last (pv_cu_seqlens_q v) <? cu_last (pv_cu_seqlens_k v)) eqn:Hlt;
    [|eauto].
  destruct requests as [|r rs].
  - rewrite Hnil in Hlt by reflexivity. rewrite Z.ltb_irrefl in Hlt. discriminate.
  - rewrite build_block_tables_padded by discriminate. eauto.
Qed.

Section PrefillErrors.
Context `{C : Collab}.


End PrefillErrors.

(** ** What a prefill feeds the model *)

Lemma fold_left_max_from (f : Seq -> Z) (requests : list Seq) (m : Z) :
  0 <= m ->
  fold_left (fun m req => Z.max (f req) m) requests m
  = Z.max m (fold_right Z.max 0 (map f requests)).
Proof.
  revert m. induction requests as [|req rest IH]; intros m Hm.
  - cbn. lia.
  - cbn [fold_left map fold_right]. rewrite IH by lia. lia.
Qed.

Lemma fold_left_max_zero (f : Seq -> Z) (requests : list Seq) :
  fold_left (fun m req => Z.max (f req) m) requests 0
  = max_from_zero (map f requests).
Proof.
  unfold max_from_zero. rewrite fold_left_max_from by lia.
  assert (0 <= fold_right Z.max 0 (map f requests)) as Hpos.
  { induction requests as [|req rest IH]; cbn; lia. }
  lia.
Qed.

Lemma concat_lengths_sum {A B} (f : A -> list B) (g : A -> Z) (l : list A) :
  Forall (fun x => Z.of_nat (length (f x)) = g x) l ->
  Z.of_nat (length (concat (map f l))) = sum_Z (map g l).
Proof.
  induction 1 as [|x rest Hx _ IH]; [reflexivity|].
  cbn [map concat sum_Z fold_right]. rewrite length_app, Nat2Z.inj_add, Hx.
  unfold sum_Z in IH. rewrite IH. reflexivity.
Qed.

Section PrefillInputs.
Context `{C : Collab}.


End PrefillInputs.


(** ** Components of the engine that a generation leaves alone *)

Create HintDb frame.

Ltac frame_step :=
  first
    [ solve [eauto 3 with frame]
    | apply preserves_ret
    | apply preserves_raise
    | apply preserves_lift
    | apply preserves_gets
    | apply preserves_modify; intros; solve [eauto 2 with frame | reflexivity]
    | apply preserves_bind; [| intros ]
    | match goal with
      | |- preserves _ (if ?b then _ else _) => destruct b
      | |- preserves _ (match ?x with _ => _ end) => destruct x
      | |- preserves _ (let '(_, _) := ?x in _) => destruct x
      end ].

Ltac frame_tac := repeat frame_step.

(** A component [f] of the engine state that the forward context, the
    device state, the cache manager, the sequences and the fixed buffers
    are no part of. *)
Section Frame.
Context `{C : Collab} {X : Type} (f : Engine -> X).
Hypothesis f_context : forall c e, f (set_context c e) = f e.
Hypothesis f_mstate : forall m e, f (set_mstate m e) = f e.
Hypothesis f_kv : forall k e, f (set_kv_manager k e) = f e.
Hypothesis f_sequences : forall s e, f (set_sequences s e) = f e.
Hypothesis f_graph_vars : forall v e, f (set_graph_vars v e) = f e.

#[local] Hint Resolve f_context f_mstate f_kv f_sequences f_graph_vars : frame.

Lemma frame_call_model (input : ModelInput Emb Mask) :
  preserves f (call_model input).
Proof using All. unfold call_model, get_forward_context. frame_tac. Qed.
#[local] Hint Resolve frame_call_model : frame.

Lemma frame_prepare_prefill (requests : list Seq) :
  preserves f (_prepare_prefill requests).
Proof using All. unfold _prepare_prefill, set_forward_context. frame_tac. Qed.

Lemma frame_prepare_decode (requests : list Seq) :
  preserves f (_prepare_decode requests).
Proof using All. unfold _prepare_decode, set_forward_context. frame_tac. Qed.

Lemma frame_direct_forward (use_tts : bool) (mel : option (Z -> Emb))
    (pos : option (PosEmbedding Emb)) (ids positions : list Z) :
  preserves f (direct_forward use_tts mel pos ids positions).
Proof using All. unfold direct_forward. frame_tac. Qed.

Lemma frame_plan_forward (tts : option TtsModules) (bs : nat) (gv : GraphVars) :
  preserves f (plan_forward tts bs gv).
Proof using All. unfold plan_forward. frame_tac. Qed.

Lemma frame_write_buffers (gbs : nat) (w : GraphVars -> Result GraphVars)
    (gv : GraphVars) :
  preserves f (write_buffers gbs w gv).
Proof using All. unfold write_buffers, set_forward_context. frame_tac. Qed.
#[local] Hint Resolve frame_prepare_prefill frame_prepare_decode
  frame_direct_forward frame_plan_forward frame_write_buffers : frame.

Lemma frame_load_buffers (gbs bs : nat) (ids positions : list Z)
    (context : ForwardContext) (gv : GraphVars) :
  preserves f (load_buffers gbs bs ids positions context gv).
Proof using All. unfold load_buffers. frame_tac. Qed.
#[local] Hint Resolve frame_load_buffers : frame.

Lemma frame_run_decode (ids positions : list Z) (context : ForwardContext)
    (mel : option (Z -> Emb)) (pos : option (PosEmbedding Emb)) :
  preserves f (_run_decode_with_graph ids positions context mel pos).
Proof using All.
  unfold _run_decode_with_graph, set_forward_context. frame_tac.
Qed.
#[local] Hint Resolve frame_run_decode : frame.

Lemma frame_decode_logits (a : GenArgs) : preserves f (decode_logits a).
Proof using All.
  unfold decode_logits, get_forward_context, reset_forward_context. frame_tac.
Qed.

Lemma frame_admit_loop (a : GenArgs) (rows : list (list Z)) :
  forall acc, preserves f (admit_loop a rows acc).
Proof using All.
  induction rows as [|row rest IH]; intros acc; cbn [admit_loop]; frame_tac.
Qed.

Lemma frame_prefill_forward (a : GenArgs) : preserves f (prefill_forward a).
Proof using All. unfold prefill_forward. frame_tac. Qed.

Lemma frame_release_sequences : preserves f release_sequences.
Proof using All. unfold release_sequences. frame_tac. Qed.

Lemma frame_advance_sequence (i : nat) (t : Z) :
  preserves f (advance_sequence i t).
Proof using All. unfold advance_sequence. frame_tac. Qed.
#[local] Hint Resolve frame_decode_logits frame_admit_loop
  frame_prefill_forward frame_release_sequences frame_advance_sequence : frame.

Lemma frame_append_first_loop (tokens : list Z) (n : nat) :
  forall i, preserves f (append_first_loop tokens i n).
Proof using All.
  induction n as [|n IH]; intros i; cbn [append_first_loop]; frame_tac.
Qed.

Lemma frame_decode_token_loop (stop : option (list Z)) (tokens : list Z) :
  forall i g flag, preserves f (decode_token_loop stop i tokens g flag).
Proof using All.
  induction tokens as [|t rest IH]; intros i g flag;
    cbn [decode_token_loop]; frame_tac.
Qed.

Lemma frame_generate_early (a : GenArgs) (g : list (list Z)) :
  preserves f (generate_early a g).
Proof using All. unfold generate_early. frame_tac. Qed.

Lemma frame_generate_finish (a : GenArgs) (g : list (list Z)) :
  preserves f (generate_finish a g).
Proof using All. unfold generate_finish. frame_tac. Qed.
#[local] Hint Resolve frame_append_first_loop frame_decode_token_loop
  frame_generate_early frame_generate_finish : frame.

(** The steps that select tokens, for arguments under which the selection
    leaves [f] alone. *)
Variable a : GenArgs.
Hypothesis f_select :
  forall requests logits,
    preserves f (select_tokens (temperature a) requests logits).
Hypothesis f_tts : forall mode n e, f (set_tts mode n e) = f e.

#[local] Hint Resolve f_select f_tts : frame.

Lemma frame_decode_next_tokens : preserves f (decode_next_tokens a).
Proof using All. unfold decode_next_tokens. frame_tac. Qed.
#[local] Hint Resolve frame_decode_next_tokens : frame.

Lemma frame_decode_loop (n : nat) :
  forall g, preserves f (decode_loop a n g).
Proof using All.
  induction n as [|n IH]; intros g; cbn [decode_loop]; frame_tac.
Qed.
#[local] Hint Resolve frame_decode_loop : frame.

Lemma bind_frame {A B} (m : M A) (k : A -> M B) (e : Engine) :
  f (snd (m e)) = f e -> (forall x, preserves f (k x)) ->
  f (snd (bind m k e)) = f e.
Proof using Type.
  intros Hm Hk. unfold bind. destruct (m e) as [[x|x] e1]; cbn in *;
    [rewrite Hk|]; exact Hm.
Qed.

(** [generate], when the capture of plans, if the call makes one, leaves
    [f] alone. *)
Lemma frame_generate (e : Engine) :
  (forall e1,
     use_cuda_graph e1 = use_cuda_graph e ->
     graph_captured e1 = graph_captured e ->
     use_cuda_graph e1 && negb (graph_captured e1) = true ->
     f (snd (bind (_capture_cuda_graphs (tts_mel_embedding a)
                     (tts_text_pos_embedding a))
                  (fun _ => modify (set_graph_captured true)) e1)) = f e1) ->
  f (snd (generate a e)) = f e.
Proof using All.
  intros Hcapture. unfold generate.
  apply bind_frame; [|intros logits; frame_tac].
  unfold prefill_logits.
  set (e1 := set_tts (match tts_embeddings a with Some _ => true | None => false end)
               (if match tts_embeddings a with Some _ => true | None => false end
                then t_cols (input_ids a) else 0%nat) e).
  change (f (snd (bind (gets use_cuda_graph) (fun cuda =>
            bind (gets graph_captured) (fun captured =>
              bind (if cuda && negb captured
                    then bind (_capture_cuda_graphs (tts_mel_embedding a)
                                 (tts_text_pos_embedding a))
                           (fun _ => modify (set_graph_captured true))
                    else ret tt)
                (fun _ =>
                   bind (admit_loop a (t_rows (input_ids a)) []) (fun sequences =>
                     bind (modify (set_sequences sequences)) (fun _ =>
                       bind (_prepare_prefill sequences) (fun _ =>
                         bind (prefill_forward a) (fun hidden_states =>
                           bind reset_forward_context (fun _ =>
                             bind (lift (last_hidden hidden_states)) (fun last =>
                               ret (compute_logits last)))))))))) e1)) = f e).
  transitivity (f e1); [|apply f_tts].
  cbn [bind gets].
  change (use_cuda_graph e1) with (use_cuda_graph e).
  change (graph_captured e1) with (graph_captured e).
  apply bind_frame; [|intros _; unfold reset_forward_context; frame_tac].
  destruct (use_cuda_graph e && negb (graph_captured e)) eqn:Hflag.
  - apply Hcapture; [reflexivity | reflexivity | exact Hflag].
  - reflexivity.
Qed.

End Frame.

(** A component that the capture of plans leaves alone as well: the plan
    table, the plan sizes and the capture flag are no part of it. *)
Section CaptureFrame.
Context `{C : Collab} {X : Type} (f : Engine -> X).
Hypothesis f_context : forall c e, f (set_context c e) = f e.
Hypothesis f_mstate : forall m e, f (set_mstate m e) = f e.
Hypothesis f_kv : forall k e, f (set_kv_manager k e) = f e.
Hypothesis f_sequences : forall s e, f (set_sequences s e) = f e.
Hypothesis f_graph_vars : forall v e, f (set_graph_vars v e) = f e.
Hypothesis f_graphs : forall g e, f (set_graphs g e) = f e.
Hypothesis f_graph_bs : forall l e, f (set_graph_bs l e) = f e.
Hypothesis f_graph_captured : forall b e, f (set_graph_captured b e) = f e.

#[local] Hint Resolve f_context f_mstate f_kv f_sequences f_graph_vars
  f_graphs f_graph_bs f_graph_captured : frame.

Lemma frame_capture_loop (tts : option TtsModules) (sizes : list nat) :
  forall gv, preserves f (capture_loop tts sizes gv).
Proof using All.
  induction sizes as [|bs rest IH]; intros gv; cbn [capture_loop].
  - apply preserves_ret.
  - unfold set_forward_context, reset_forward_context.
    frame_tac.
Qed.
#[local] Hint Resolve frame_capture_loop : frame.

Lemma frame_capture (mel : option (Z -> Emb)) (pos : option (PosEmbedding Emb)) :
  preserves f (bind (_capture_cuda_graphs mel pos)
                 (fun _ => modify (set_graph_captured true))).
Proof using All. unfold _capture_cuda_graphs. frame_tac. Qed.

End CaptureFrame.

Section GenerationFrames.
Context `{C : Collab}.

(** X4. Plans are captured at most once.  A [generate] call on an engine
    that has captured its plans, or whose plan replay is off, leaves the
    plan table, the plan sizes and the capture flag as they are, with
    whatever arguments it is called and whether it returns or raises: the
    plan recorded by the first capturing call, on the branch that call
    chose, is the one every later call replays. *)
Theorem generate_captures_once (a : GenArgs) (e : Engine) :
  use_cuda_graph e = false \/ graph_captured e = true ->
  graphs (snd (generate a e)) = graphs e /\
  graph_bs (snd (generate a e)) = graph_bs e /\
  graph_captured (snd (generate a e)) = graph_captured e.
Proof.
  intros Hflag.
  pose proof (frame_generate
                (fun e => (graphs e, graph_bs e, graph_captured e))) as H.
  specialize (H ltac:(reflexivity) ltac:(reflexivity) ltac:(reflexivity)
                ltac:(reflexivity) ltac:(reflexivity) a).
  specialize (H ltac:(intros; unfold select_tokens; preserves_tac)
                ltac:(reflexivity) e).
  cbv beta in H.
  assert ((graphs (snd (generate a e)), graph_bs (snd (generate a e)),
           graph_captured (snd (generate a e)))
          = (graphs e, graph_bs e, graph_captured e)) as Heq.
  { apply H. intros e1 Hc Hg Htrue. rewrite Hc, Hg in Htrue.
    destruct Hflag as [Hoff|Hdone]; [rewrite Hoff in Htrue|rewrite Hdone in Htrue];
      [discriminate | rewrite andb_false_r in Htrue; discriminate]. }
  inversion Heq. repeat split; reflexivity.
Qed.

Lemma select_tokens_greedy_rng (temperature : Q) (requests : list Seq)
    (logits : list (list Logit)) :
  temperature_positive temperature = false ->
  preserves rng (select_tokens temperature requests logits).
Proof.
  intros Ht. unfold select_tokens. rewrite Ht. apply preserves_lift.
Qed.

(** X5. Greedy generation draws nothing from the random source: with a
    temperature that is not positive, a [generate] call leaves the state
    of the random source as it found it, whether it captures plans,
    replays them, returns or raises. *)
Theorem greedy_keeps_random_source (a : GenArgs) (e : Engine) :
  temperature_positive (temperature a) = false ->
  rng (snd (generate a e)) = rng e.
Proof.
  intros Ht.
  apply (frame_generate rng); try (intros; reflexivity).
  - intros requests logits. apply select_tokens_greedy_rng. exact Ht.
  - intros e1 _ _ _.
    apply (frame_capture rng); intros; reflexivity.
Qed.

End GenerationFrames.

Lemma generate_captures_once_witness :
  let table := fun (_ _ : nat) (_ : ForwardContext) => [0; 1] in
  let e0 := Mock.engine table Mock.capacity true in
  let e := snd (generate (Mock.args table [[5; 9; 2]] 3 2 0 None) e0) in
  let a := Mock.args table [[7; 7]; [1; 2]] 2 3 0 None in
  graph_captured e = true /\
  graphs (snd (generate a e)) = graphs e /\
  graph_bs (snd (generate a e)) = [1%nat].
Proof.
  cbv zeta.
  assert (graph_captured
            (snd (generate
                    (Mock.args (fun (_ _ : nat) (_ : ForwardContext) => [0; 1])
                       [[5; 9; 2]] 3 2 0 None)
                    (Mock.engine (fun (_ _ : nat) (_ : ForwardContext) => [0; 1])
                       Mock.capacity true))) = true) as Hcap
    by (vm_compute; reflexivity).
  split; [exact Hcap|].
  destruct (generate_captures_once
              (Mock.args (fun (_ _ : nat) (_ : ForwardContext) => [0; 1])
                 [[7; 7]; [1; 2]] 2 3 0 None)
              _ (or_intror Hcap)) as (Hg & Hbs & _).
  split; [exact Hg|]. rewrite Hbs. vm_compute. reflexivity.
Defined.

Lemma greedy_keeps_random_source_witness :
  let table := Mock.fixed [[[1; 2; 7; 3]]; [[9; 1; 1; 1]]; [[0; 0; 0; 4]]] in
  let a := Mock.args table [[5; 9; 2]] 3 3 0 None in
  let e := Mock.engine table Mock.capacity true in
  temperature_positive (temperature a) = false /\
  rng (snd (generate a e)) = rng e.
Proof.
  cbv zeta. split; [reflexivity|].
  apply greedy_keeps_random_source. reflexivity.
Defined.

(** ** The state a returning call leaves *)

Section Post.
Context `{C : Collab}.

Lemma ensures_bind {A B} (Q : Engine -> Prop) (m : M A) (k : A -> M B) :
  (forall x, ensures Q (k x)) -> ensures Q (bind m k).
Proof.
  intros Hk e r e' H. apply bind_inv in H. destruct H as (x & e1 & _ & H).
  exact (Hk x e1 r e' H).
Qed.

Lemma ensures_then {A B} (Q : Engine -> Prop) (m : M A) (k : A -> M B) :
  ensures Q m -> (forall x, returns_keeping Q (k x)) -> ensures Q (bind m k).
Proof.
  intros Hm Hk e r e' H. apply bind_inv in H. destruct H as (x & e1 & H1 & H).
  exact (Hk x e1 r e' (Hm e x e1 H1) H).
Qed.

Lemma returns_keeping_bind {A B} (Q : Engine -> Prop) (m : M A) (k : A -> M B) :
  returns_keeping Q m -> (forall x, returns_keeping Q (k x)) ->
  returns_keeping Q (bind m k).
Proof.
  intros Hm Hk e r e' HQ H. apply bind_inv in H.
  destruct H as (x & e1 & H1 & H).
  exact (Hk x e1 r e' (Hm e x e1 HQ H1) H).
Qed.

Lemma ensures_returns_keeping {A} (Q : Engine -> Prop) (m : M A) :
  ensures Q m -> returns_keeping Q m.
Proof. intros Hm e r e' _ H. exact (Hm e r e' H). Qed.

Lemma preserves_returns_keeping {A X} (f : Engine -> X) (v : X) (m : M A) :
  preserves f m -> returns_keeping (fun e => f e = v) m.
Proof.
  intros Hm e r e' HQ H. rewrite <- HQ, <- (Hm e), H. reflexivity.
Qed.

Lemma ensures_modify (Q : Engine -> Prop) (u : Engine -> Engine) :
  (forall e, Q (u e)) -> ensures Q (modify u).
Proof. intros Hu e r e' H. inversion H. apply Hu. Qed.

Lemma select_tokens_context (temperature : Q) (requests : list Seq)
    (logits : list (list Logit)) :
  preserves current_context (select_tokens temperature requests logits).
Proof. unfold select_tokens. preserves_tac. Qed.

Lemma advance_sequence_context (i : nat) (t : Z) :
  preserves current_context (advance_sequence i t).
Proof. unfold advance_sequence. preserves_tac. Qed.

Lemma append_first_loop_context (tokens : list Z) (n : nat) :
  forall i, preserves current_context (append_first_loop tokens i n).
Proof.
  induction n as [|n IH]; intros i; cbn [append_first_loop]; preserves_tac;
    try apply advance_sequence_context; try apply IH.
Qed.

Lemma decode_token_loop_context (stop : option (list Z)) (tokens : list Z) :
  forall i g flag,
    preserves current_context (decode_token_loop stop i tokens g flag).
Proof.
  induction tokens as [|t rest IH]; intros i g flag;
    cbn [decode_token_loop]; preserves_tac;
    try apply advance_sequence_context; try apply IH.
Qed.

Lemma release_sequences_context : preserves current_context release_sequences.
Proof. unfold release_sequences. preserves_tac. Qed.

Lemma generate_early_context (a : GenArgs) (g : list (list Z)) :
  preserves current_context (generate_early a g).
Proof.
  unfold generate_early. preserves_tac; try apply release_sequences_context.
Qed.

Lemma generate_finish_context (a : GenArgs) (g : list (list Z)) :
  preserves current_context (generate_finish a g).
Proof.
  unfold generate_finish. preserves_tac; try apply release_sequences_context.
Qed.

Lemma ensures_reset {A} (k : M A) :
  preserves current_context k ->
  ensures context_reset (bind reset_forward_context (fun _ => k)).
Proof.
  intros Hk. apply ensures_then.
  - apply ensures_modify. intros e. reflexivity.
  - intros _. apply preserves_returns_keeping. exact Hk.
Qed.

Lemma prefill_logits_resets (a : GenArgs) :
  ensures context_reset (prefill_logits a).
Proof.
  unfold prefill_logits.
  do 8 (apply ensures_bind; intros).
  apply ensures_reset. preserves_tac.
Qed.

Lemma decode_logits_resets (a : GenArgs) :
  ensures context_reset (decode_logits a).
Proof.
  unfold decode_logits.
  apply ensures_bind; intros sequences. apply ensures_bind; intros prepared.
  destruct (Nat.ltb 8 (batch_size_of a)).
  - intros e r e' H. discriminate.
  - apply ensures_bind; intros context. apply ensures_bind; intros hs.
    apply ensures_reset. preserves_tac.
Qed.

Lemma decode_loop_resets (a : GenArgs) (n : nat) :
  forall g, returns_keeping context_reset (decode_loop a n g).
Proof.
  induction n as [|n IH]; intros g; cbn [decode_loop].
  - apply (preserves_returns_keeping current_context). apply preserves_ret.
  - apply returns_keeping_bind.
    + apply ensures_returns_keeping. unfold decode_next_tokens.
      apply ensures_then; [apply decode_logits_resets|].
      intros logits. apply (preserves_returns_keeping current_context).
      preserves_tac. apply select_tokens_context.
    + intros tokens. apply returns_keeping_bind.
      * apply (preserves_returns_keeping current_context).
        apply decode_token_loop_context.
      * intros r. destruct (snd r); [|apply IH].
        apply (preserves_returns_keeping current_context). apply preserves_ret.
Qed.

Lemma release_sequences_empties : ensures (fun e => current_sequences e = []) release_sequences.
Proof.
  unfold release_sequences. intros e r e' H.
  cbn [bind gets] in H.
  destruct (remove_loop (kv_manager e) (current_sequences e)) as [k' s'].
  cbn in H. inversion H. reflexivity.
Qed.

Lemma early_rows_length (rows : list (list Z)) :
  forall i g out, early_rows rows i g = Ok out -> length out = length rows.
Proof.
  induction rows as [|row rest IH]; intros i g out H; cbn [early_rows] in H.
  - inversion H. reflexivity.
  - destruct (g !! i); [|discriminate].
    destruct (early_rows rest (S i) g) as [o|] eqn:Ho; [|discriminate].
    inversion H. cbn. f_equal. eapply IH. exact Ho.
Qed.

Lemma tensor2d_inv {A} (rows out : list (list A)) :
  tensor2d rows = Ok out ->
  out = rows /\ forall r1 r2, In r1 rows -> In r2 rows -> length r1 = length r2.
Proof.
  unfold tensor2d. destruct rows as [|r rs].
  - intros H. inversion H. split; [reflexivity | intros ? ? []].
  - destruct (forallb _ rs) eqn:Hall; [|discriminate].
    intros H. inversion H. split; [reflexivity|].
    rewrite forallb_forall in Hall.
    assert (forall x, In x (r :: rs) -> length x = length r) as Hlen.
    { intros x [<-|Hx]; [reflexivity|]. apply Nat.eqb_eq. apply Hall. exact Hx. }
    intros r1 r2 Hr1 Hr2. rewrite (Hlen r1 Hr1), (Hlen r2 Hr2). reflexivity.
Qed.

(** X6. What a returning [generate] call leaves and gives: no forward
    context is installed, the engine holds no sequence, and the matrix has
    one row per row of the input, all of one length. *)
Theorem generate_returns_clean (a : GenArgs) (e e' : Engine)
    (out : list (list Z)) :
  generate a e = (Ok out, e') ->
  current_context e' = empty_context /\
  current_sequences e' = [] /\
  length out = batch_size_of a /\
  (forall r1 r2, In r1 out -> In r2 out -> length r1 = length r2).
Proof.
  intros H. split; [|split].
  - revert H. generalize e out e'. change (ensures context_reset (generate a)).
    unfold generate. apply ensures_then; [apply prefill_logits_resets|].
    intros logits. apply (returns_keeping_bind context_reset).
    { apply (preserves_returns_keeping current_context). apply preserves_gets. }
    intros sequences. apply returns_keeping_bind.
    { apply (preserves_returns_keeping current_context).
      apply select_tokens_context. }
    intros tokens. apply returns_keeping_bind.
    { apply (preserves_returns_keeping current_context). apply preserves_lift. }
    intros r. destruct (snd r).
    + apply (preserves_returns_keeping current_context).
      apply generate_early_context.
    + apply returns_keeping_bind.
      { apply (preserves_returns_keeping current_context).
        apply append_first_loop_context. }
      intros _. apply returns_keeping_bind; [apply decode_loop_resets|].
      intros g. apply (preserves_returns_keeping current_context).
      apply generate_finish_context.
  - revert H. generalize e out e'.
    change (ensures (fun e => current_sequences e = []) (generate a)).
    unfold generate. do 4 (apply ensures_bind; intros).
    match goal with
    | |- ensures _ (if ?b then _ else _) => destruct b
    end.
    + unfold generate_early. apply ensures_then; [apply release_sequences_empties|].
      intros s. apply (preserves_returns_keeping current_sequences).
      preserves_tac.
    + do 2 (apply ensures_bind; intros).
      unfold generate_finish.
      apply ensures_then; [apply release_sequences_empties|].
      intros s. apply (preserves_returns_keeping current_sequences).
      preserves_tac.
  - unfold generate in H.
    apply bind_inv in H. destruct H as (logits & e1 & _ & H).
    apply bind_inv in H. destruct H as (sequences & e2 & _ & H).
    apply bind_inv in H. destruct H as (tokens & e3 & _ & H).
    apply bind_inv in H. destruct H as (r & e4 & _ & H).
    destruct (snd r).
    + unfold generate_early in H.
      apply bind_inv in H. destruct H as (s & e5 & _ & H).
      apply bind_inv in H. destruct H as (rows & e6 & Hrows & H).
      apply lift_inv in Hrows. destruct Hrows as [Hrows _].
      apply lift_inv in H. destruct H as [H _].
      apply tensor2d_inv in H. destruct H as [-> Hrect].
      split; [|exact Hrect]. apply early_rows_length in Hrows. exact Hrows.
    + apply bind_inv in H. destruct H as (u & e5 & _ & H).
      apply bind_inv in H. destruct H as (g & e6 & _ & H).
      unfold generate_finish in H.
      apply bind_inv in H. destruct H as (s & e7 & _ & H).
      apply bind_inv in H. destruct H as (rows & e8 & _ & H).
      apply bind_inv in H. destruct H as (output & e9 & Hout & H).
      apply lift_inv in Hout. destruct Hout as [Hout _].
      apply tensor2d_inv in Hout. destruct Hout as [-> Hrect].
      destruct (Nat.eqb (length rows) (batch_size_of a)) eqn:Hlen;
        [|discriminate].
      inversion H; subst. split; [|exact Hrect].
      apply Nat.eqb_eq. exact Hlen.
Qed.

End Post.

Lemma generate_returns_clean_witness :
  let table := Mock.fixed [[[1; 2; 7; 3]]; [[9; 1; 1; 1]]; [[0; 0; 0; 4]]] in
  let a := Mock.args table [[5; 9; 2]] 3 3 0 None in
  let e := Mock.engine table Mock.capacity false in
  fst (generate a e) = Ok [[5; 9; 2; 2; 0; 3]] /\
  current_context (snd (generate a e)) = empty_context /\
  current_sequences (snd (generate a e)) = [].
Proof.
  cbv zeta.
  assert (fst (generate
                 (Mock.args
                    (Mock.fixed [[[1; 2; 7; 3]]; [[9; 1; 1; 1]]; [[0; 0; 0; 4]]])
                    [[5; 9; 2]] 3 3 0 None)
                 (Mock.engine
                    (Mock.fixed [[[1; 2; 7; 3]]; [[9; 1; 1; 1]]; [[0; 0; 0; 4]]])
                    Mock.capacity false)) = Ok [[5; 9; 2; 2; 0; 3]]) as Hrun
    by (vm_compute; reflexivity).
  split; [exact Hrun|].
  destruct (generate_returns_clean _ _ _ _
              (eq_trans (surjective_pairing _)
                 (f_equal (fun r => (r, _)) Hrun))) as (Hc & Hs & _).
  split; [exact Hc | exact Hs].
Defined.
